(** * The debugger's attribute value and its textual codec

    A shallow embedding of [debugger/src/common/attribute.cpp]: the
    tagged-union [AttributeType], the list and dictionary mutators, the
    in-place quicksort and the encoder/decoder of the configuration
    grammar.  Every definition follows the C++ function of the same name. *)

From Stdlib Require Import ZArith Ascii String List Lia.
From stdpp Require Import base option list strings sorting.

Set Warnings "-register-all".
Local Open Scope Z_scope.

(** ** Outcomes of a call

    A call either returns a value together with the diagnostics it sent to
    [RISCV_printf], or it leaves defined behaviour: a read beyond the
    terminating NUL of its input ([Overrun k]: [k] characters beyond the
    terminator), another undefined operation ([Undefined]: an inactive
    union member is read, an array is indexed outside its bounds), or the
    model's recursion budget is exhausted ([OutOfFuel]). *)

Inductive result (A : Type) : Type :=
| Ok (a : A) (log : list string)
| Overrun (k : nat)
| Undefined
| OutOfFuel.

Arguments Ok {A} a log.
Arguments Overrun {A} k.
Arguments Undefined {A}.
Arguments OutOfFuel {A}.

Definition ret {A} (a : A) : result A := Ok a [].

Definition bind {A B} (m : result A) (f : A -> result B) : result B :=
  match m with
  | Ok a l1 =>
      match f a with
      | Ok b l2 => Ok b (l1 ++ l2)
      | Overrun k => Overrun k
      | Undefined => Undefined
      | OutOfFuel => OutOfFuel
      end
  | Overrun k => Overrun k
  | Undefined => Undefined
  | OutOfFuel => OutOfFuel
  end.

Arguments bind {A B} m f : simpl never.

(** [RISCV_printf(NULL, LOG_ERROR, msg)] *)
Definition RISCV_printf (msg : string) : result unit := Ok tt [msg].

Notation "x <- m ;; k" := (bind m (fun x => k))
  (at level 20, m at level 99, k at level 200, only parsing).
Notation "' pat <- m ;; k" := (bind m (fun x => match x with pat => k end))
  (at level 20, pat pattern, m at level 99, k at level 200, only parsing).

Definition value {A} (m : result A) : option A :=
  match m with Ok a _ => Some a | _ => None end.

Definition diagnostics {A} (m : result A) : list string :=
  match m with Ok _ l => l | _ => [] end.

(** ** Characters, C strings and machine integers *)

Definition text := list ascii.

Definition txt (s : string) : text := list_ascii_of_string s.

Definition NUL : ascii := ascii_of_N 0.

Definition code (c : ascii) : Z := Z.of_N (N_of_ascii c).

Definition chr (z : Z) : ascii := ascii_of_N (Z.to_N z).

(** [strlen]: a C string ends at its first NUL. *)
Fixpoint c_str (s : text) : text :=
  match s with
  | [] => []
  | c :: s' => if decide (c = NUL) then [] else c :: c_str s'
  end.

(** The sign of [strcmp(a, b)]: characters compare as unsigned bytes. *)
Fixpoint strcmp (a b : text) : Z :=
  match a, b with
  | [], [] => 0
  | [], _ :: _ => -1
  | _ :: _, [] => 1
  | c :: a', d :: b' =>
      if code c <? code d then -1
      else if code d <? code c then 1
      else strcmp a' b'
  end.

Definition wrap64u (z : Z) : Z := z mod 2 ^ 64.

Definition wrap64s (z : Z) : Z := (z + 2 ^ 63) mod 2 ^ 64 - 2 ^ 63.

(** [static_cast<int>(unsigned)] *)
Definition wrap32s (z : Z) : Z := (z + 2 ^ 31) mod 2 ^ 32 - 2 ^ 31.

(** [unsigned] arithmetic *)
Definition wrap32u (z : Z) : Z := z mod 2 ^ 32.

(** ** The variant value

    [kind_], [size_] and the union [u_] of the class are one constructor
    with its payload; [size_] is the length of the payload.  A [Dict] holds
    [AttributePairType] structures, each a [key_] and a [value_]
    attribute. *)

Record IFace : Type := { getFaceName : text; getObjName : text }.

Inductive AttributeType : Type :=
| Attr_Invalid
| Attr_Nil
| Attr_Boolean (b : bool)
| Attr_Integer (v : Z)
| Attr_UInteger (v : Z)
| Attr_Floating (bits : Z)
| Attr_String (s : text)
| Attr_Data (d : list Byte.byte)
| Attr_List (l : list AttributeType)
| Attr_Dict (d : list (AttributeType * AttributeType))
| Attr_Interface (iface : option IFace).

Definition AttributePairType : Type := (AttributeType * AttributeType)%type.
Definition key_ (p : AttributePairType) : AttributeType := fst p.
Definition value_ (p : AttributePairType) : AttributeType := snd p.

Definition is_nil (a : AttributeType) : bool :=
  match a with Attr_Nil => true | _ => false end.
Definition is_bool (a : AttributeType) : bool :=
  match a with Attr_Boolean _ => true | _ => false end.
Definition is_int64 (a : AttributeType) : bool :=
  match a with Attr_Integer _ => true | _ => false end.
Definition is_uint64 (a : AttributeType) : bool :=
  match a with Attr_UInteger _ => true | _ => false end.
Definition is_floating (a : AttributeType) : bool :=
  match a with Attr_Floating _ => true | _ => false end.
Definition is_string (a : AttributeType) : bool :=
  match a with Attr_String _ => true | _ => false end.
Definition is_data (a : AttributeType) : bool :=
  match a with Attr_Data _ => true | _ => false end.
Definition is_list (a : AttributeType) : bool :=
  match a with Attr_List _ => true | _ => false end.
Definition is_dict (a : AttributeType) : bool :=
  match a with Attr_Dict _ => true | _ => false end.
Definition is_iface (a : AttributeType) : bool :=
  match a with Attr_Interface _ => true | _ => false end.

Definition size (a : AttributeType) : nat :=
  match a with
  | Attr_String s => length s
  | Attr_Data d => length d
  | Attr_List l => length l
  | Attr_Dict d => length d
  | _ => 0%nat
  end.

(** The accessors return the union member of the kind that stores it;
    through any other kind they read an inactive member.  After
    [attr_free] the active member is the integer 0. *)
Definition to_string (a : AttributeType) : result text :=
  match a with Attr_String s => ret s | _ => Undefined end.

Definition to_int64 (a : AttributeType) : result Z :=
  match a with
  | Attr_Integer v => ret v
  | Attr_UInteger v => ret (wrap64s v)
  | Attr_Invalid | Attr_Nil => ret 0
  | _ => Undefined
  end.

Definition to_uint64 (a : AttributeType) : result Z :=
  match a with
  | Attr_Integer v => ret (wrap64u v)
  | Attr_UInteger v => ret v
  | Attr_Invalid | Attr_Nil => ret 0
  | _ => Undefined
  end.

Definition to_bool (a : AttributeType) : result bool :=
  match a with Attr_Boolean b => ret b | _ => Undefined end.

(** Modelled from the spec: the default constructor, which the class
    header defines ("an Attribute is default-constructed as Nil"). *)
Definition default_attribute : AttributeType := Attr_Nil.

(** The file-level [static AttributeType NilAttribute]. *)
Definition NilAttribute : AttributeType := default_attribute.

Definition attr_free (a : AttributeType) : AttributeType := Attr_Invalid.

Definition make_nil (a : AttributeType) : AttributeType := Attr_Nil.

Definition make_boolean (b : bool) (a : AttributeType) : AttributeType :=
  Attr_Boolean b.

Definition make_int64 (v : Z) (a : AttributeType) : AttributeType :=
  Attr_Integer v.

(** [value] is [None] for a null pointer. *)
Definition make_string (value : option text) (a : AttributeType)
  : AttributeType :=
  match value with
  | Some s => Attr_String (c_str s)
  | None => Attr_Nil
  end.

(** [make_data(size, data)] copies [size] bytes of [data]. *)
Definition make_data (sz : nat) (data : list Byte.byte) (a : AttributeType)
  : result AttributeType :=
  if decide (sz <= length data)%nat then ret (Attr_Data (take sz data))
  else Undefined.

Definition make_dict (a : AttributeType) : AttributeType := Attr_Dict [].

(** ** Deep copy *)

Section MapM.
Context {A B : Type} (f : A -> result B).

Fixpoint mapM (l : list A) : result (list B) :=
  match l with
  | [] => ret []
  | x :: l' => y <- f x ;; ys <- mapM l' ;; ret (y :: ys)
  end.
End MapM.

Fixpoint clone (v : AttributeType) : result AttributeType :=
  match v with
  | Attr_String s => ret (make_string (Some s) Attr_Invalid)
  | Attr_Data d => make_data (length d) d Attr_Invalid
  | Attr_List l => l' <- mapM clone l ;; ret (Attr_List l')
  | Attr_Dict d =>
      d' <- mapM (fun p =>
                    k <- to_string (key_ p) ;;
                    v' <- clone (value_ p) ;;
                    ret (make_string (Some k) Attr_Invalid, v')) d ;;
      ret (Attr_Dict d')
  | _ => ret v
  end.

(** [is_equal(v)] *)
Definition is_equal (v : text) (a : AttributeType) : result bool :=
  if negb (is_string a) then ret false
  else s <- to_string a ;; ret (bool_decide (strcmp s v = 0)).

(** ** Indexing

    The indexing operators return references.  A reference into an
    attribute is a [place]; [load] and [store] read and write through it.
    [Sentinel] is the shared [NilAttribute]: a write through it changes
    file-level state that is no part of the indexed value, which the
    embedding does not follow ([Undefined]). *)

Inductive place : Type :=
| ListItem (idx : nat)
| DictValue (idx : nat)
| Sentinel.

(** An [int] passed for an [unsigned] parameter. *)
Definition to_unsigned (z : Z) : nat := Z.to_nat (wrap32u z).

(** [operator[](unsigned idx)] *)
Definition op_index (a : AttributeType) (idx : nat) : result place :=
  if is_list a then ret (ListItem idx)
  else if is_dict a then ret (DictValue idx)
  else _ <- RISCV_printf "Non-indexed attribute type" ;; ret Sentinel.

Definition load (a : AttributeType) (p : place) : result AttributeType :=
  match p, a with
  | ListItem i, Attr_List l =>
      match l !! i with Some x => ret x | None => Undefined end
  | DictValue i, Attr_Dict d =>
      match d !! i with Some kv => ret (value_ kv) | None => Undefined end
  | Sentinel, _ => ret NilAttribute
  | _, _ => Undefined
  end.

Definition store (a : AttributeType) (p : place) (x : AttributeType)
  : result AttributeType :=
  match p, a with
  | ListItem i, Attr_List l =>
      if decide (i < length l)%nat then ret (Attr_List (<[i := x]> l))
      else Undefined
  | DictValue i, Attr_Dict d =>
      match d !! i with
      | Some kv => ret (Attr_Dict (<[i := (key_ kv, x)]> d))
      | None => Undefined
      end
  | _, _ => Undefined
  end.

(** [dst = src] through [operator=]: a deep copy written to [p]. *)
Definition assign (a : AttributeType) (p : place) (src : AttributeType)
  : result AttributeType :=
  c <- clone src ;; store a p c.

(** The linear scan of [operator[](const char *key)]. *)
Fixpoint find_key (key : text) (d : list AttributePairType) (i : nat)
  : result (option nat) :=
  match d with
  | [] => ret None
  | p :: d' =>
      k <- to_string (key_ p) ;;
      if decide (strcmp key k = 0) then ret (Some i)
      else find_key key d' (S i)
  end.


(** [operator[](const char *key)]: the dictionary after the call and the
    place of the value it returns.  On another kind the scan and
    [realloc_dict] go through the inactive [dict] member.  The new pair
    is appended: what [realloc_dict(size() + 1)] and the two stores to
    the slot [size() - 1] leave while the unsigned sum does not wrap,
    that is on fewer than [2^32 - 1] pairs.  The theorems on a lookup
    that appends carry this bound; at [2^32 - 1] pairs the sum is 0 and
    [realloc_dict] leaves no pair. *)
Definition op_index_key (key : text) (a : AttributeType)
  : result (AttributeType * place) :=
  match a with
  | Attr_Dict d =>
      r <- find_key key d 0 ;;
      match r with
      | Some i => ret (a, DictValue i)
      | None =>
          ret (Attr_Dict (d ++ [(make_string (Some key) Attr_Invalid,
                                 make_nil Attr_Invalid)]),
               DictValue (length d))
      end
  | _ => Undefined
  end.

(** [operator()(unsigned idx)] returns a reference to a byte of the inline
    array [u_.data_bytes] or of the heap buffer [u_.data]. *)
Inductive byte_place : Type :=
| data_bytes (idx : nat)
| data (idx : nat).

Definition op_call (a : AttributeType) (idx : nat) : result byte_place :=
  if decide (size a < idx)%nat then
    _ <- RISCV_printf "Data index '%d' out of range." ;; ret (data 0)
  else if decide (8 < size a)%nat then ret (data idx)
  else ret (data_bytes idx).

(** What a byte reference of a [Data] value reads.  [make_data] keeps at
    most 8 bytes in the inline array, which [attr_free] zeroed before, and
    more than 8 bytes in a heap buffer of exactly that size. *)
Definition load_byte (a : AttributeType) (p : byte_place)
  : result Byte.byte :=
  match a, p with
  | Attr_Data d, data_bytes i =>
      if decide (length d <= 8)%nat then
        if decide (i < 8)%nat then ret (nth i d Byte.x00) else Undefined
      else Undefined
  | Attr_Data d, data i =>
      if decide (8 < length d)%nat then
        match d !! i with Some b => ret b | None => Undefined end
      else Undefined
  | _, _ => Undefined
  end.

(** ** List mutation *)

(** [realloc_list(size)] of a list that has not shrunk since its storage
    was allocated: the slots it uncovers are the zero bytes [realloc_list]
    filled the chunk with, which read as a released attribute. *)
Definition realloc_list (sz : nat) (a : AttributeType)
  : result AttributeType :=
  match a with
  | Attr_List l =>
      ret (Attr_List (take sz l ++ replicate (sz - length l) Attr_Invalid))
  | _ => Undefined
  end.

Definition make_list (sz : nat) (a : AttributeType) : AttributeType :=
  Attr_List (replicate sz Attr_Invalid).

(** [size_ -= n] on a list or a dictionary: the last slots leave it. *)
Definition shrink (n : Z) (a : AttributeType) : result AttributeType :=
  match a with
  | Attr_List l =>
      ret (Attr_List (take (Z.to_nat (wrap32u (Z.of_nat (length l) - n))) l))
  | Attr_Dict d =>
      ret (Attr_Dict (take (Z.to_nat (wrap32u (Z.of_nat (length d) - n))) d))
  | _ => Undefined
  end.

(** [swap_list_item(n, m)] exchanges [size_], [kind_] and the 8-byte union
    of two slots of [u_.list], that is, the two elements. *)
Definition swap_list_item (n m : nat) (a : AttributeType)
  : result AttributeType :=
  if decide (n = m) then ret a
  else
    match a with
    | Attr_List l =>
        match l !! n, l !! m with
        | Some x, Some y => ret (Attr_List (<[m := x]> (<[n := y]> l)))
        | _, _ => Undefined
        end
    | _ => Undefined
    end.

Definition remove_from_list (idx : nat) (a : AttributeType)
  : result AttributeType :=
  if decide (size a <= idx)%nat then
    _ <- RISCV_printf "Remove index out of range" ;; ret a
  else
    p <- op_index a idx ;;
    x <- load a p ;;
    a1 <- store a p (attr_free x) ;;
    if decide (idx = (size a - 1)%nat) then shrink 1 a1
    else if decide (idx < size a)%nat then
      a2 <- swap_list_item idx (size a - 1) a1 ;;
      shrink 1 a2
    else ret a1.


(** [insert_to_list(idx, item)] builds the new array from the slots
    before [idx], a copy of [item] and the slots from [idx] on, then
    increments the [unsigned] [size_].  It does not look at the kind: on
    another kind it copies from whatever [u_.list] aliases. *)
Definition insert_to_list (idx : nat) (item : AttributeType)
    (a : AttributeType) : result AttributeType :=
  if decide (size a < idx)%nat then
    _ <- RISCV_printf "Insert index out of bound" ;; ret a
  else
    match a with
    | Attr_List l =>
        c <- clone item ;;
        ret (Attr_List
               (take (Z.to_nat (wrap32u (Z.of_nat (length l) + 1)))
                     (take idx l ++ c :: drop idx l)))
    | _ => Undefined
    end.

(** One iteration of the loop of [trim_list]. *)
Definition trim_step (start end_ i : nat) (a : AttributeType)
  : result AttributeType :=
  x <- load a (ListItem (start + i)) ;;
  a1 <- store a (ListItem (start + i)) (attr_free x) ;;
  if decide (start + i = end_ + i)%nat then ret a1
  else
    src <- load a1 (ListItem (end_ + i)) ;;
    assign a1 (ListItem (start + i)) src.

Fixpoint trim_loop (n : nat) (start end_ i : nat) (a : AttributeType)
  : result AttributeType :=
  match n with
  | O => ret a
  | S n' => a' <- trim_step start end_ i a ;; trim_loop n' start end_ (S i) a'
  end.

Definition trim_list (start end_ : nat) (a : AttributeType)
  : result AttributeType :=
  let bound := wrap32u (Z.of_nat (size a) - Z.of_nat end_) in
  a' <- trim_loop (Z.to_nat (bound - Z.of_nat start)) start end_ start a ;;
  shrink (wrap32u (Z.of_nat end_ - Z.of_nat start)) a'.

(** ** Ordering *)

(** The body of the loop of [partition] up to [do_swap]: [None] is the
    branch that reports an unsupported kind and returns. *)
Definition do_swap (A : AttributeType) (pivot : place) (lst_idx j : Z)
  : result (option bool) :=
  item_ref <- op_index A (to_unsigned j) ;;
  item <- load A item_ref ;;
  if is_string item then
    s <- to_string item ;;
    pv <- load A pivot ;;
    ps <- to_string pv ;;
    ret (Some (strcmp s ps <=? 0))
  else if is_int64 item then
    x <- to_int64 item ;;
    pv <- load A pivot ;;
    y <- to_int64 pv ;;
    ret (Some (x <=? y))
  else if is_uint64 item then
    x <- to_uint64 item ;;
    pv <- load A pivot ;;
    y <- to_uint64 pv ;;
    ret (Some (x <=? y))
  else if is_list item then
    t1_ref <- op_index item (to_unsigned lst_idx) ;;
    t1 <- load item t1_ref ;;
    if is_string t1 then
      s <- to_string t1 ;;
      pv <- load A pivot ;;
      p_ref <- op_index pv (to_unsigned lst_idx) ;;
      pe <- load pv p_ref ;;
      ps <- to_string pe ;;
      ret (Some (strcmp s ps <=? 0))
    else if is_int64 t1 then
      x <- to_int64 t1 ;;
      pv <- load A pivot ;;
      p_ref <- op_index pv (to_unsigned lst_idx) ;;
      pe <- load pv p_ref ;;
      y <- to_int64 pe ;;
      ret (Some (x <=? y))
    else if is_uint64 t1 then
      x <- to_uint64 t1 ;;
      pv <- load A pivot ;;
      p_ref <- op_index pv (to_unsigned lst_idx) ;;
      pe <- load pv p_ref ;;
      y <- to_uint64 pe ;;
      ret (Some (x <=? y))
    else ret (Some false)
  else
    _ <- RISCV_printf "Not supported attribute type for sorting" ;;
    ret None.

(** The [for] loop of [partition], [n] iterations from [j]: [inl (A, i)]
    when it runs to [hi], [inr (A, i + 1)] when it returns from inside. *)
Fixpoint partition_loop (n : nat) (A : AttributeType) (pivot : place)
    (lst_idx i j : Z)
  : result (AttributeType * Z + AttributeType * Z) :=
  match n with
  | O => ret (inl (A, i))
  | S n' =>
      sw <- do_swap A pivot lst_idx j ;;
      match sw with
      | None => ret (inr (A, i + 1))
      | Some true =>
          A' <- swap_list_item (to_unsigned (i + 1)) (to_unsigned j) A ;;
          partition_loop n' A' pivot lst_idx (i + 1) (j + 1)
      | Some false => partition_loop n' A pivot lst_idx i (j + 1)
      end
  end.

Definition partition (A : AttributeType) (lo hi lst_idx : Z)
  : result (AttributeType * Z) :=
  pivot <- op_index A (to_unsigned hi) ;;
  r <- partition_loop (Z.to_nat (hi - lo)) A pivot lst_idx (lo - 1) lo ;;
  match r with
  | inr (A', p) => ret (A', p)
  | inl (A', i) =>
      A'' <- swap_list_item (to_unsigned (i + 1)) (to_unsigned hi) A' ;;
      ret (A'', i + 1)
  end.

(** [quicksort] recurses on a strictly shorter range, [fuel] bounds the
    depth of the recursion. *)
Fixpoint quicksort (fuel : nat) (A : AttributeType) (lo hi lst_idx : Z)
  : result AttributeType :=
  if lo >=? hi then ret A
  else
    match fuel with
    | O => OutOfFuel
    | S fuel' =>
        '(A1, p) <- partition A lo hi lst_idx ;;
        A2 <- quicksort fuel' A1 lo (p - 1) lst_idx ;;
        quicksort fuel' A2 (p + 1) hi lst_idx
    end.

Definition sort (idx : Z) (A : AttributeType) : result AttributeType :=
  _ <- (if is_list A then ret tt
        else RISCV_printf
               "Sort algorithm can applied only to list attribute") ;;
  quicksort (size A) A 0 (wrap32s (Z.of_nat (size A)) - 1) idx.

(** ** Dictionary membership *)

Fixpoint has_key_scan (key : text) (d : list AttributePairType)
  : result bool :=
  match d with
  | [] => ret false
  | p :: d' =>
      k <- to_string (key_ p) ;;
      if bool_decide (strcmp k key = 0) && negb (is_nil (value_ p))
      then ret true
      else has_key_scan key d'
  end.

Definition has_key (key : text) (a : AttributeType) : result bool :=
  match a with
  | Attr_Dict d => has_key_scan key d
  | _ => if decide (size a = 0%nat) then ret false else Undefined
  end.

(** ** The scratch buffer *)

Local Open Scope char_scope.
Local Open Scope Z_scope.

(** Modelled from the spec: [AutoBuffer], the "growable byte/string
    accumulator" of [autobuffer.h].  It accumulates bytes by appending;
    [getBuffer] returns what was accumulated as a C string.
    [write_uint64] writes "unsigned decimal digits of the value's bit
    pattern". *)
Fixpoint dec_digits (fuel : nat) (n : Z) (acc : text) : text :=
  match fuel with
  | O => acc
  | S fuel' =>
      let acc' := chr (code "0" + n mod 10) :: acc in
      if n <? 10 then acc' else dec_digits fuel' (n / 10) acc'
  end.

Definition write_uint64 (v : Z) : text := dec_digits 20 v [].

(** Modelled from the spec: [AutoBuffer::write_byte], a "two-digit
    uppercase-hex byte value". *)
Definition hex_digit (v : Z) : ascii :=
  if v <? 10 then chr (code "0" + v) else chr (code "A" + (v - 10)).

Definition byte_code (b : Byte.byte) : Z := Z.of_N (Byte.to_N b).

Definition write_byte (b : Byte.byte) : text :=
  [hex_digit (byte_code b / 16); hex_digit (byte_code b mod 16)].

Arguments write_byte b : simpl never.

(** ** Reading the input

    A [const char *] into the NUL-terminated input is the text that
    remains from it up to the terminator, or a position beyond the
    terminator. *)

Inductive cptr : Type :=
| Ptr (s : text)
| Beyond (k : nat).

(** [*p] *)
Definition peek (p : cptr) : result ascii :=
  match p with
  | Ptr [] => ret NUL
  | Ptr (c :: _) => ret c
  | Beyond k => Overrun k
  end.

(** [p + 1] *)
Definition next (p : cptr) : cptr :=
  match p with
  | Ptr (_ :: s) => Ptr s
  | Ptr [] => Beyond 1
  | Beyond k => Beyond (S k)
  end.

Definition is_special (c : ascii) : bool :=
  bool_decide (c = " ") || bool_decide (c = chr 13)
  || bool_decide (c = chr 10) || bool_decide (c = chr 9).

Fixpoint skip_special (s : text) : text :=
  match s with
  | c :: s' => if is_special c then skip_special s' else s
  | [] => []
  end.

Definition skip_special_symbols (cfg : cptr) : result cptr :=
  match cfg with
  | Ptr s => ret (Ptr (skip_special s))
  | Beyond k => Overrun k
  end.

(** [p[0] == lit[0] && p[1] == lit[1] && ...], left to right. *)
Fixpoint literal_at (lit : text) (p : cptr) : result bool :=
  match lit with
  | [] => ret true
  | c :: lit' =>
      x <- peek p ;;
      if decide (x = c) then literal_at lit' (next p) else ret false
  end.

Fixpoint advance (n : nat) (p : cptr) : cptr :=
  match n with O => p | S n' => advance n' (next p) end.

(** The scan of a string token: how many characters lie before the
    closing quote [t1] or the NUL, and where the scan stops. *)
Fixpoint scan_string (t1 : ascii) (s : text) : nat * text :=
  match s with
  | [] => (0%nat, [])
  | c :: s' =>
      if bool_decide (c = t1) || bool_decide (c = NUL) then (0%nat, s)
      else let '(n, r) := scan_string t1 s' in (S n, r)
  end.

(** [&cfg[1]] and the [sz] bytes [write_bin] copies from there. *)
Definition write_bin (cfg : cptr) (sz : nat) : result text :=
  match cfg with
  | Ptr s =>
      if decide (sz <= length (tail s))%nat then ret (take sz (tail s))
      else Undefined
  | Beyond k => Overrun k
  end.

(** One character of a byte of a data token, accumulated in the [char]
    [byte_value]: the value it keeps is the low 8 bits. *)
Definition hex_step (byte_value : Z) (c : ascii) : Z :=
  let v :=
    if (code "A" <=? code c) && (code c <=? code "F")
    then Z.lor (Z.shiftl byte_value 4) (code c - code "A" + 10)
    else Z.lor (Z.shiftl byte_value 4) (code c - code "0") in
  Z.land v 255.

(** The inner [for (n = 0; n < 2; n++)] loop. *)
Definition read_hex_pair (pcur : cptr) : result (cptr * Z) :=
  c0 <- peek pcur ;;
  let b0 := hex_step 0 c0 in
  let pcur := next pcur in
  c1 <- peek pcur ;;
  let b1 := hex_step b0 c1 in
  ret (next pcur, b1).

Definition to_byte (z : Z) : Byte.byte := byte_of_ascii (chr z).

(** [pcur = skip_special_symbols(pcur)], then one comma and the special
    symbols after it are skipped when a comma is there. *)
Definition skip_separator (pcur : cptr) : result cptr :=
  pcur <- skip_special_symbols pcur ;;
  c <- peek pcur ;;
  if decide (c = ",") then skip_special_symbols (next pcur) else ret pcur.

Fixpoint data_loop (fuel : nat) (pcur : cptr) (buf : list Byte.byte)
  : result (cptr * list Byte.byte) :=
  match fuel with
  | O => OutOfFuel
  | S fuel' =>
      c <- peek pcur ;;
      if bool_decide (c = ")") || bool_decide (c = NUL) then ret (pcur, buf)
      else
        '(pcur, byte_value) <- read_hex_pair pcur ;;
        let buf := buf ++ [to_byte byte_value] in
        pcur <- skip_separator pcur ;;
        data_loop fuel' pcur buf
  end.

(** [strtoull(digits, NULL, 0)] of the C library on a string of hexadecimal
    digit characters with an optional [0x] in front: the radix is chosen
    by the prefix, the longest run of digits of that radix is converted,
    and a value out of range is [ULLONG_MAX]. *)
Definition digit_value (c : ascii) : option Z :=
  if (code "0" <=? code c) && (code c <=? code "9")
  then Some (code c - code "0")
  else if (code "a" <=? code c) && (code c <=? code "z")
  then Some (code c - code "a" + 10)
  else if (code "A" <=? code c) && (code c <=? code "Z")
  then Some (code c - code "A" + 10)
  else None.

Fixpoint digits_prefix (base : Z) (s : text) : list Z :=
  match s with
  | [] => []
  | c :: s' =>
      match digit_value c with
      | Some v => if v <? base then v :: digits_prefix base s' else []
      | None => []
      end
  end.

Definition accumulate (base : Z) (ds : list Z) : Z :=
  fold_left (fun acc d => acc * base + d) ds 0.

Definition ULLONG_MAX : Z := 2 ^ 64 - 1.

Definition strtoull (s : text) : Z :=
  let '(base, body) :=
    match s with
    | c0 :: x :: h :: s' =>
        if bool_decide (c0 = "0") then
          if (bool_decide (x = "x") || bool_decide (x = "X"))
             && bool_decide (is_Some (digit_value h))
             && bool_decide (default 16 (digit_value h) < 16)
          then (16, h :: s') else (8, s)
        else (10, s)
    | c0 :: _ => if bool_decide (c0 = "0") then (8, s) else (10, s)
    | [] => (10, s)
    end in
  Z.min (accumulate base (digits_prefix base body)) ULLONG_MAX.

Definition is_hex_char (c : ascii) : bool :=
  ((code "0" <=? code c) && (code c <=? code "9"))
  || ((code "a" <=? code c) && (code c <=? code "f"))
  || ((code "A" <=? code c) && (code c <=? code "F")).

Fixpoint scan_digits (s : text) : text * text :=
  match s with
  | c :: s' =>
      if is_hex_char c then let '(ds, r) := scan_digits s' in (c :: ds, r)
      else ([], s)
  | [] => ([], [])
  end.

(** The integer literal: [digits] is a [char[32]] filled without a bound
    and read by [strtoull] up to its NUL. *)
Definition integer_literal (pcur : cptr) : result (cptr * Z) :=
  c0 <- peek pcur ;;
  has_prefix <- (if decide (c0 = "0") then
                   c1 <- peek (next pcur) ;; ret (bool_decide (c1 = "x"))
                 else ret false) ;;
  let pcur := if has_prefix then advance 2 pcur else pcur in
  let prefix := if has_prefix then ["0"; "x"] else [] in
  match pcur with
  | Beyond k => Overrun k
  | Ptr s =>
      let '(ds, r) := scan_digits s in
      let digits := prefix ++ ds in
      if decide (length digits <= 31)%nat
      then ret (Ptr r, wrap64s (strtoull digits))
      else Undefined
  end.

(** ** The codec

    The service registry, the name of the service interface and the
    formatting of a [double] by [RISCV_sprintf] with [%.4f] belong to other
    modules of the debugger: the codec is stated for any of them. *)

Section Codec.
Variable IFACE_SERVICE : text.
Variable RISCV_get_service : text -> option IFace.
Variable sprintf_4f : Z -> text.

(** [buf->write_byte(attr(n))] *)
Definition write_byte_at (attr : AttributeType) (n : nat) : result text :=
  p <- op_call attr n ;;
  b <- load_byte attr p ;;
  ret (write_byte b).

(** [cnt] iterations, from [n], of the loop that writes a byte and a
    comma. *)
Fixpoint data_items (cnt n : nat) (attr : AttributeType) : result text :=
  match cnt with
  | O => ret []
  | S cnt' =>
      t <- write_byte_at attr n ;;
      r <- data_items cnt' (S n) attr ;;
      ret (t ++ [","] ++ r)
  end.

(** [attribute_to_string] appends to the shared buffer; the embedding
    returns what one call appends.  The list loop copies each element to
    [list_item] before it encodes it; a copy that succeeds is equal to
    its source ([clone_Ok] below), so the recursive call is made on the
    element itself. *)
Fixpoint attribute_to_string (attr : AttributeType) : result text :=
  match attr with
  | Attr_Nil => ret (txt "None")
  | Attr_Integer _ | Attr_UInteger _ =>
      v <- to_uint64 attr ;; ret (write_uint64 v)
  | Attr_String _ =>
      s <- to_string attr ;; ret (["'"] ++ s ++ ["'"])
  | Attr_Boolean _ =>
      b <- to_bool attr ;; ret (if b then txt "true" else txt "false")
  | Attr_List l =>
      body <- (fix items (l : list AttributeType) : result text :=
                 match l with
                 | [] => ret []
                 | x :: l' =>
                     _ <- clone x ;;
                     t <- attribute_to_string x ;;
                     r <- items l' ;;
                     ret (t ++ (if l' is [] then [] else [","]) ++ r)
                 end) l ;;
      ret (["["] ++ body ++ ["]"])
  | Attr_Dict d =>
      body <- (fix pairs (d : list (AttributeType * AttributeType))
                 : result text :=
                 match d with
                 | [] => ret []
                 | p :: d' =>
                     k <- to_string (key_ p) ;;
                     t <- attribute_to_string (value_ p) ;;
                     r <- pairs d' ;;
                     ret (["'"] ++ k ++ ["'"; ":"] ++ t
                          ++ (if d' is [] then [] else [","]) ++ r)
                 end) d ;;
      ret (["{"] ++ body ++ ["}"])
  | Attr_Data d =>
      body <- (if decide (0 < size attr)%nat then
                 r <- data_items (size attr - 1) 0 attr ;;
                 t <- write_byte_at attr (size attr - 1) ;;
                 ret (r ++ t)
               else ret []) ;;
      ret (["("] ++ body ++ [")"])
  | Attr_Interface iface =>
      match iface with
      | None => Undefined
      | Some i =>
          if decide (strcmp (getFaceName i) IFACE_SERVICE = 0) then
            ret (["{"] ++ txt "'Type':'" ++ getFaceName i
                 ++ txt "','ModuleName':'" ++ getObjName i ++ txt "'}")
          else
            _ <- RISCV_printf "Not implemented interface to dict. method" ;;
            ret []
      end
  | Attr_Floating bits => ret (sprintf_4f bits)
  | Attr_Invalid => ret []
  end.

(** [to_config]: the buffer is cleared, filled and returned. *)
Definition to_config (a : AttributeType) : result text :=
  attribute_to_string a.

(** After a dictionary token: a [Type] entry naming the service
    interface turns the dictionary into an interface reference. *)
Definition resolve_service (out : AttributeType) : result AttributeType :=
  has_type <- has_key (txt "Type") out ;;
  if has_type then
    '(out, r) <- op_index_key (txt "Type") out ;;
    tv <- load out r ;;
    ts <- to_string tv ;;
    if decide (strcmp ts IFACE_SERVICE = 0) then
      '(out, r) <- op_index_key (txt "ModuleName") out ;;
      mv <- load out r ;;
      name <- to_string mv ;;
      ret (Attr_Interface (RISCV_get_service name))
    else
      _ <- RISCV_printf "Not implemented string to dict. attribute" ;;
      ret out
  else ret out.

(** [string_to_attribute(cfg, out)] returns the position after the token
    and the attribute [out] points to, which it was given as it stood
    before the call.  [fuel] bounds the calls and loop iterations. *)
Fixpoint string_to_attribute (fuel : nat) (cfg : cptr) (out : AttributeType)
  {struct fuel} : result (cptr * AttributeType) :=
  match fuel with
  | O => OutOfFuel
  | S fuel' =>
      pcur <- skip_special_symbols cfg ;;
      c <- peek pcur ;;
      if bool_decide (c = "'") || bool_decide (c = chr 34) then
        let t1 := c in
        match next pcur with
        | Beyond k => Overrun k
        | Ptr s =>
            let '(str_sz, stop) := scan_string t1 s in
            buf <- write_bin cfg str_sz ;;
            ret (next (Ptr stop), make_string (Some buf) out)
        end
      else if decide (c = "[") then
        pcur <- skip_special_symbols (next pcur) ;;
        '(pcur, out) <- list_loop fuel' pcur default_attribute
                          (make_list 0 out) ;;
        pcur <- skip_special_symbols (next pcur) ;;
        ret (pcur, out)
      else if decide (c = "{") then
        let out := make_dict out in
        pcur <- skip_special_symbols (next pcur) ;;
        '(pcur, out) <- dict_loop fuel' pcur default_attribute
                          default_attribute out ;;
        pcur <- skip_special_symbols (next pcur) ;;
        out <- resolve_service out ;;
        ret (pcur, out)
      else if decide (c = "(") then
        pcur <- skip_special_symbols (next pcur) ;;
        '(pcur, buf) <- data_loop fuel' pcur [] ;;
        out <- make_data (length buf) buf out ;;
        pcur <- skip_special_symbols (next pcur) ;;
        ret (pcur, out)
      else
        pcur <- skip_special_symbols pcur ;;
        is_none <- literal_at (txt "None") pcur ;;
        if is_none then ret (advance 4 pcur, out)
        else
          is_false <- literal_at (txt "false") pcur ;;
          if is_false then ret (advance 5 pcur, make_boolean false out)
          else
            is_true <- literal_at (txt "true") pcur ;;
            if is_true then ret (advance 4 pcur, make_boolean true out)
            else
              '(pcur, t1) <- integer_literal pcur ;;
              ret (pcur, make_int64 t1 out)
  end
with list_loop (fuel : nat) (pcur : cptr) (new_item out : AttributeType)
  {struct fuel} : result (cptr * AttributeType) :=
  match fuel with
  | O => OutOfFuel
  | S fuel' =>
      c <- peek pcur ;;
      if bool_decide (c = "]") || bool_decide (c = NUL) then ret (pcur, out)
      else
        '(pcur, new_item) <- string_to_attribute fuel' pcur new_item ;;
        out <- realloc_list (size out + 1) out ;;
        r <- op_index out (size out - 1) ;;
        out <- assign out r new_item ;;
        pcur <- skip_separator pcur ;;
        list_loop fuel' pcur new_item out
  end
with dict_loop (fuel : nat) (pcur : cptr)
       (new_key new_value out : AttributeType)
  {struct fuel} : result (cptr * AttributeType) :=
  match fuel with
  | O => OutOfFuel
  | S fuel' =>
      c <- peek pcur ;;
      if bool_decide (c = "}") || bool_decide (c = NUL) then ret (pcur, out)
      else
        '(pcur, new_key) <- string_to_attribute fuel' pcur new_key ;;
        pcur <- skip_special_symbols pcur ;;
        c <- peek pcur ;;
        let pcur := if decide (c = ":") then next pcur else pcur in
        pcur <- skip_special_symbols pcur ;;
        '(pcur, new_value) <- string_to_attribute fuel' pcur new_value ;;
        key <- to_string new_key ;;
        '(out, r) <- op_index_key key out ;;
        out <- assign out r new_value ;;
        pcur <- skip_separator pcur ;;
        dict_loop fuel' pcur new_key new_value out
  end.

(** [from_config(str)] on the attribute [this]. *)
Definition from_config (fuel : nat) (str : text) (this : AttributeType)
  : result AttributeType :=
  '(_, out) <- string_to_attribute fuel (Ptr str) this ;;
  ret out.

End Codec.

(** ** Constructible values

    What the [make_] operations and the mutators can build: a string
    holds no NUL, integers fit their 64 bits, and every dictionary key is
    a string. *)

Definition int64_range (v : Z) : bool := (- 2 ^ 63 <=? v) && (v <? 2 ^ 63).
Definition uint64_range (v : Z) : bool := (0 <=? v) && (v <? 2 ^ 64).

Definition c_string (s : text) : bool :=
  forallb (fun c => negb (bool_decide (c = NUL))) s.

Fixpoint constructible (a : AttributeType) : bool :=
  match a with
  | Attr_Integer v => int64_range v
  | Attr_UInteger v => uint64_range v
  | Attr_String s => c_string s
  | Attr_List l => forallb constructible l
  | Attr_Dict d =>
      forallb (fun p => match fst p with
                        | Attr_String k => c_string k
                        | _ => false
                        end && constructible (snd p)) d
  | _ => true
  end.

Section AttributeType_induction.
Variable P : AttributeType -> Prop.
Hypothesis P_Invalid : P Attr_Invalid.
Hypothesis P_Nil : P Attr_Nil.
Hypothesis P_Boolean : forall b, P (Attr_Boolean b).
Hypothesis P_Integer : forall v, P (Attr_Integer v).
Hypothesis P_UInteger : forall v, P (Attr_UInteger v).
Hypothesis P_Floating : forall v, P (Attr_Floating v).
Hypothesis P_String : forall s, P (Attr_String s).
Hypothesis P_Data : forall d, P (Attr_Data d).
Hypothesis P_List : forall l, Forall P l -> P (Attr_List l).
Hypothesis P_Dict :
  forall d, Forall (fun p => P (fst p) /\ P (snd p)) d -> P (Attr_Dict d).
Hypothesis P_Interface : forall i, P (Attr_Interface i).

Fixpoint AttributeType_nested_ind (a : AttributeType) : P a :=
  match a with
  | Attr_Invalid => P_Invalid
  | Attr_Nil => P_Nil
  | Attr_Boolean b => P_Boolean b
  | Attr_Integer v => P_Integer v
  | Attr_UInteger v => P_UInteger v
  | Attr_Floating v => P_Floating v
  | Attr_String s => P_String s
  | Attr_Data d => P_Data d
  | Attr_List l =>
      P_List l
        ((fix go (l : list AttributeType) : Forall P l :=
            match l with
            | [] => Forall_nil_2 P
            | x :: l' =>
                Forall_cons_2 P x l' (AttributeType_nested_ind x) (go l')
            end) l)
  | Attr_Dict d =>
      P_Dict d
        ((fix go (d : list (AttributeType * AttributeType))
            : Forall (fun p => P (fst p) /\ P (snd p)) d :=
            match d with
            | [] => Forall_nil_2 _
            | p :: d' =>
                Forall_cons_2 _ p d'
                  (conj (AttributeType_nested_ind (fst p))
                        (AttributeType_nested_ind (snd p)))
                  (go d')
            end) d)
  | Attr_Interface i => P_Interface i
  end.
End AttributeType_induction.

(** ** Dictionaries built by the mutators

    [operator[]] and [clone] store every key with [make_string]. *)

Definition string_keyed (d : list AttributePairType) : bool :=
  forallb (fun p => is_string (key_ p)) d.

(** No pair of [d] has the key [k]. *)
Definition key_absent (k : text) (d : list AttributePairType) : bool :=
  forallb (fun p => match key_ p with
                    | Attr_String s => negb (bool_decide (s = k))
                    | _ => true
                    end) d.

(** ** The order of a sorted list

    [partition] compares two strings with [strcmp], two signed integers
    and two unsigned integers by value; [attr_le x y] is its test
    "[x] goes to the lower part for the pivot [y]" on elements of one of
    these kinds. *)

Definition attr_le (x y : AttributeType) : bool :=
  match x, y with
  | Attr_String s, Attr_String t => strcmp s t <=? 0
  | Attr_Integer a, Attr_Integer b => a <=? b
  | Attr_UInteger a, Attr_UInteger b => a <=? b
  | _, _ => false
  end.

(** All strings, all signed integers or all unsigned integers. *)
Definition homogeneous (l : list AttributeType) : bool :=
  forallb is_string l || forallb is_int64 l || forallb is_uint64 l.

(** The three kinds [partition] compares. *)
Definition sortable_kind (K : AttributeType -> bool) : Prop :=
  K = is_string \/ K = is_int64 \/ K = is_uint64.

(** ** Values the text form preserves

    The text form has no place for the difference between a signed and an
    unsigned integer, writes a string between single quotes without
    escaping, reads a dictionary back through lookups by key and turns a
    dictionary with a [Type] entry into an interface reference.
    [text_stable] holds of the values built from booleans, signed
    integers, strings without a single quote, byte data, lists and
    dictionaries with distinct keys other than [Type]. *)


Fixpoint distinct_keys (d : list AttributePairType) : bool :=
  match d with
  | [] => true
  | p :: d' =>
      match key_ p with
      | Attr_String k => key_absent k d'
      | _ => false
      end && distinct_keys d'
  end.



(** What may follow a token in the text of a list or dictionary: nothing,
    a comma or a closing bracket. *)
Definition delimited (rest : text) : bool :=
  match rest with
  | [] => true
  | c :: _ =>
      bool_decide (c = ","%char) || bool_decide (c = "]"%char)
      || bool_decide (c = "}"%char)
  end.


(** The text of a stable value, as a function: tokens joined by commas
    between the brackets of their kind.  [attribute_to_string] writes
    exactly this text ([attribute_to_string_stable] below). *)
Fixpoint join_comma (ts : list text) : text :=
  match ts with
  | [] => []
  | t :: ts' =>
      t ++ match ts' with [] => [] | _ => ","%char :: join_comma ts' end
  end.

Definition key_text (k : AttributeType) : text :=
  match k with Attr_String s => s | _ => [] end.

Definition pair_text (p : AttributePairType) (t : text) : text :=
  ["'"%char] ++ key_text (fst p) ++ ["'"%char; ":"%char] ++ t.

Fixpoint text_of (a : AttributeType) : text :=
  match a with
  | Attr_Boolean b => if b then txt "true" else txt "false"
  | Attr_Integer v => write_uint64 (wrap64u v)
  | Attr_String s => ["'"%char] ++ s ++ ["'"%char]
  | Attr_Data d => ["("%char] ++ join_comma (map write_byte d) ++ [")"%char]
  | Attr_List l => ["["%char] ++ join_comma (map text_of l) ++ ["]"%char]
  | Attr_Dict d =>
      ["{"%char]
      ++ join_comma (map (fun p => pair_text p (text_of (snd p))) d)
      ++ ["}"%char]
  | _ => []
  end.

(** A service registry, interface name and float format to run the codec
    on concrete inputs. *)
Definition sample_IFACE_SERVICE : text := txt "IService".

Definition sample_get_service (name : text) : option IFace :=
  Some {| getFaceName := sample_IFACE_SERVICE; getObjName := name |}.

Definition sample_sprintf_4f (bits : Z) : text := txt "0.0000".




(** ** Rows ordered by a column

    [sort(idx)] on a list of lists compares the elements at position
    [idx] of two rows. *)

Definition row_key (idx : Z) (row : AttributeType) : option AttributeType :=
  match row with
  | Attr_List r => r !! to_unsigned idx
  | _ => None
  end.

Definition row_kind (K : AttributeType -> bool) (idx : Z)
    (row : AttributeType) : bool :=
  match row_key idx row with Some e => K e | None => false end.

Definition row_le (idx : Z) (x y : AttributeType) : bool :=
  match row_key idx x, row_key idx y with
  | Some a, Some b => attr_le a b
  | _, _ => false
  end.

(** Every row has, at [idx], a string, or every row a signed integer, or
    every row an unsigned integer. *)
Definition rows_homogeneous (idx : Z) (l : list AttributeType) : bool :=
  forallb (row_kind is_string idx) l || forallb (row_kind is_int64 idx) l
  || forallb (row_kind is_uint64 idx) l.

(** ** Characters no token starts with

    A character that is no blank, opens no string, list, dictionary or
    data token, closes no list, is no comma, no hexadecimal digit and not
    the first letter of [None], [true] or [false]. *)
Definition stray (c : ascii) : bool :=
  negb (is_special c) && negb (is_hex_char c)
  && negb (bool_decide (c = "'"%char)) && negb (bool_decide (c = chr 34))
  && negb (bool_decide (c = "["%char)) && negb (bool_decide (c = "{"%char))
  && negb (bool_decide (c = "("%char)) && negb (bool_decide (c = "]"%char))
  && negb (bool_decide (c = ","%char)) && negb (bool_decide (c = NUL))
  && negb (bool_decide (c = "N"%char)) && negb (bool_decide (c = "t"%char)).


(** A string attribute holds no NUL. *)
Definition nul_free (a : AttributeType) : bool :=
  match a with Attr_String s => c_string s | _ => true end.

(** What a token that starts with the character [c] decodes to, [out]
    being the attribute before the call. *)
Definition token_shape (c : ascii) (out a : AttributeType) : Prop :=
  if bool_decide (c = "'"%char) || bool_decide (c = chr 34)
  then exists t, a = Attr_String t /\ c_string t = true
  else if bool_decide (c = "["%char) then is_list a = true
  else if bool_decide (c = "{"%char)
  then (exists d, a = Attr_Dict d /\ distinct_keys d = true)
       \/ is_iface a = true
  else if bool_decide (c = "("%char) then is_data a = true
  else a = out \/ is_bool a = true \/ is_int64 a = true.

(** No interface reference in [a] is a null pointer. *)
Fixpoint no_null_iface (a : AttributeType) : bool :=
  match a with
  | Attr_Interface None => false
  | Attr_List l => forallb no_null_iface l
  | Attr_Dict d => forallb (fun p => no_null_iface (snd p)) d
  | _ => true
  end.

(** ** The monad *)

Lemma bind_ret {A B} (a : A) (f : A -> result B) : bind (ret a) f = f a.
Proof. unfold bind, ret. destruct (f a); reflexivity. Qed.

Lemma bind_pure {A B} (a : A) (f : A -> result B) : bind (Ok a []) f = f a.
Proof. apply (bind_ret a f). Qed.

Ltac mstep := first [rewrite bind_ret | rewrite bind_pure].
Ltac msimpl := repeat (mstep; simpl).

Lemma bind_Ok_nil {A B} (m : result A) (f : A -> result B) a :
  m = Ok a [] -> bind m f = f a.
Proof. intros ->. apply (bind_ret a f). Qed.

Lemma bind_inv {A B} (m : result A) (f : A -> result B) b l :
  bind m f = Ok b l ->
  exists a l1 l2, m = Ok a l1 /\ f a = Ok b l2 /\ l = l1 ++ l2.
Proof.
  unfold bind. destruct m as [a l1| | |]; try discriminate.
  destruct (f a) as [b' l2| | |] eqn:E; try discriminate.
  intros [= <- <-]. eauto 6.
Qed.

(** ** Deep copy of a constructible value *)

Lemma c_str_c_string s : c_string s = true -> c_str s = s.
Proof.
  induction s as [|c s IH]; simpl; [done|].
  intros [Hc Hs]%andb_prop. case_decide as E.
  - subst c. by rewrite bool_decide_eq_true_2 in Hc.
  - by rewrite IH.
Qed.

Lemma mapM_id {A} (f : A -> result A) (l : list A) :
  Forall (fun x => f x = Ok x []) l -> mapM f l = Ok l [].
Proof.
  induction 1 as [|x l Hx _ IH]; simpl; [done|].
  rewrite (bind_Ok_nil _ _ _ Hx), (bind_Ok_nil _ _ _ IH). done.
Qed.

Lemma clone_Ok (v : AttributeType) :
  constructible v = true -> clone v = Ok v [].
Proof.
  induction v as [| | | | | |s|d|l IH|d IH|] using AttributeType_nested_ind;
    simpl; intros Hc; try done.
  - by rewrite c_str_c_string.
  - unfold make_data. rewrite decide_True by lia. by rewrite firstn_all.
  - rewrite (bind_Ok_nil _ _ l); [done|].
    apply mapM_id. rewrite forallb_forall in Hc.
    apply Forall_forall. intros x Hx.
    rewrite Forall_forall in IH. apply IH; [done|].
    apply Hc. by apply list_elem_of_In.
  - rewrite (bind_Ok_nil _ _ d); [done|].
    apply mapM_id. rewrite forallb_forall in Hc.
    apply Forall_forall. intros [k x] Hx.
    rewrite Forall_forall in IH. destruct (IH _ Hx) as [_ IHx].
    apply list_elem_of_In, Hc in Hx. simpl in *.
    destruct k; try done. apply andb_prop in Hx as [Hk Hv].
    unfold key_, value_. simpl.
    rewrite bind_ret, (bind_Ok_nil _ _ _ (IHx Hv)).
    by rewrite c_str_c_string.
Qed.

(** ** String comparison *)

Lemma code_inj c d : code c = code d -> c = d.
Proof.
  unfold code. intros H%(inj Z.of_N).
  rewrite <- (ascii_N_embedding c), <- (ascii_N_embedding d). by rewrite H.
Qed.

Lemma strcmp_refl a : strcmp a a = 0.
Proof.
  induction a as [|c a IH]; simpl; [done|]. by rewrite Z.ltb_irrefl.
Qed.

Lemma strcmp_eq a b : strcmp a b = 0 <-> a = b.
Proof.
  split; [|intros ->; apply strcmp_refl].
  revert b. induction a as [|c a IH]; intros [|d b]; simpl; try done.
  destruct (Z.ltb_spec (code c) (code d)); [done|].
  destruct (Z.ltb_spec (code d) (code c)); [done|].
  intros H1%IH. f_equal; [apply code_inj; lia|done].
Qed.

(** ** remove_from_list *)

Lemma wrap32u_small z : 0 <= z < 2 ^ 32 -> wrap32u z = z.
Proof. intros. unfold wrap32u. by apply Z.mod_small. Qed.




(** ** Lookup by key *)

Lemma find_key_absent k d i :
  string_keyed d = true -> key_absent k d = true ->
  find_key k d i = Ok None [].
Proof.
  revert i. induction d as [|[key v] d IH]; intros i; simpl; [done|].
  intros [Hs Hd]%andb_prop [Ha Hd']%andb_prop.
  unfold key_ in *. simpl in *. destruct key; try done. simpl.
  rewrite bind_ret. apply negb_true_iff, bool_decide_eq_false in Ha.
  rewrite decide_False; [by apply IH|].
  intros E%strcmp_eq. congruence.
Qed.





(** ** has_key *)

Lemma has_key_scan_true k d log :
  has_key_scan k d = Ok true log ->
  exists v, (Attr_String k, v) ∈ d /\ v <> Attr_Nil.
Proof.
  revert log. induction d as [|[key v] d IH]; intros log; simpl; [done|].
  unfold key_, value_. simpl. destruct key; try done. simpl.
  rewrite bind_ret.
  destruct (bool_decide (strcmp s k = 0)) eqn:E; simpl.
  - apply bool_decide_eq_true, strcmp_eq in E. subst s.
    destruct (is_nil v) eqn:Hn; simpl.
    + intros (v' & Hin & Hv)%IH. exists v'. split; [by right|done].
    + intros _. exists v. split; [by left|]. by intros ->.
  - intros (v' & Hin & Hv)%IH. exists v'. split; [by right|done].
Qed.

Lemma has_key_scan_found k d v :
  string_keyed d = true -> (Attr_String k, v) ∈ d -> v <> Attr_Nil ->
  has_key_scan k d = Ok true [].
Proof.
  induction d as [|[key x] d IH]; simpl; [by intros _ ?%elem_of_nil|].
  intros [Hs Hd]%andb_prop Hin Hv.
  unfold key_, value_ in *. simpl in *. destruct key; try done. simpl.
  rewrite bind_ret. apply elem_of_cons in Hin as [[= <- <-]|Hin].
  - rewrite bool_decide_eq_true_2 by apply strcmp_refl.
    by destruct v.
  - destruct (_ && _); [done|]. by apply IH.
Qed.

Lemma has_key_scan_total k d :
  string_keyed d = true -> exists b, has_key_scan k d = Ok b [].
Proof.
  induction d as [|[key x] d IH]; simpl; [by exists false|].
  intros [Hs Hd]%andb_prop. unfold key_, value_ in *. simpl in *.
  destruct key; try done. simpl. rewrite bind_ret.
  destruct (_ && _); [by exists true|]. by apply IH.
Qed.

Lemma has_key_scan_vivified k k' d :
  string_keyed d = true -> key_absent k d = true ->
  has_key_scan k (d ++ [(Attr_String k', Attr_Nil)]) = Ok false [].
Proof.
  induction d as [|[key x] d IH]; simpl.
  - intros _ _. unfold key_, value_. simpl. rewrite bind_ret.
    by rewrite andb_false_r.
  - intros [Hs Hd]%andb_prop [Ha Hd']%andb_prop.
    unfold key_, value_ in *. simpl in *. destruct key; try done. simpl.
    rewrite bind_ret. apply negb_true_iff, bool_decide_eq_false in Ha.
    rewrite bool_decide_eq_false_2 by (intros E%strcmp_eq; congruence).
    simpl. by apply IH.
Qed.

(** C10. On a dictionary, [has_key(k)] returns true exactly when some pair
    has the key [k] and a value that is not Nil; the pair a lookup of an
    absent key has just created holds Nil, and [has_key] returns false
    for it. *)
Theorem has_key_ignores_nil (d : list AttributePairType) (k : text)
    (Hkeys : string_keyed d = true) :
  (exists b, has_key k (Attr_Dict d) = Ok b []
             /\ (b = true <->
                 exists v, (Attr_String k, v) ∈ d /\ v <> Attr_Nil))
  /\ (key_absent k d = true ->
      exists d' r,
        op_index_key k (Attr_Dict d) = Ok (Attr_Dict d', r) []
        /\ load (Attr_Dict d') r = Ok Attr_Nil []
        /\ has_key k (Attr_Dict d') = Ok false []).
Proof.
  split.
  - destruct (has_key_scan_total k d Hkeys) as [b Hb].
    exists b. split; [done|]. split.
    + intros ->. by eapply has_key_scan_true.
    + intros (v & Hin & Hv). simpl in Hb.
      rewrite (has_key_scan_found k d v) in Hb by done. congruence.
  - intros Habsent. eexists _, _. split; [|split].
    + unfold op_index_key. rewrite find_key_absent by done.
      rewrite bind_pure. reflexivity.
    + simpl. rewrite lookup_app_r by done. by rewrite Nat.sub_diag.
    + simpl. by apply has_key_scan_vivified.
Qed.

Lemma has_key_ignores_nil_witness :
  has_key (txt "x") (Attr_Dict [(Attr_String (txt "x"), Attr_Nil)])
  = Ok false []
  /\ exists d' r,
       op_index_key (txt "x") (Attr_Dict []) = Ok (Attr_Dict d', r) []
       /\ has_key (txt "x") (Attr_Dict d') = Ok false [].
Proof.
  split.
  - destruct (has_key_ignores_nil
                [(Attr_String (txt "x"), Attr_Nil)] (txt "x") eq_refl)
      as [(b & Hb & Hiff) _].
    destruct b; [|exact Hb].
    destruct (proj1 Hiff eq_refl) as (v & Hin & Hv).
    apply list_elem_of_singleton in Hin. by injection Hin as <-.
  - destruct (has_key_ignores_nil [] (txt "x") eq_refl) as [_ H].
    destruct (H eq_refl) as (d' & r & H1 & _ & H3). by exists d', r.
Defined.

(** ** trim_list *)

Lemma trim_loop_from_zero (l : list AttributeType) (e : nat) :
  (0 < e <= length l)%nat ->
  Forall (fun x => constructible x = true) l ->
  forall n k,
    (k + n = length l - e)%nat ->
    trim_loop n 0 e k (Attr_List (take k (drop e l) ++ drop k l))
    = Ok (Attr_List (take (k + n) (drop e l) ++ drop (k + n) l)) [].
Proof.
  intros He Hl. induction n as [|n IH]; intros k Hk.
  - by rewrite Nat.add_0_r.
  - cbn [trim_loop]. unfold trim_step. cbn [Nat.add load store].
    assert (Hlen : length (take k (drop e l)) = k)
      by (rewrite length_take, length_drop; lia).
    destruct (lookup_lt_is_Some_2 l k) as [x Hx]; [lia|].
    destruct (lookup_lt_is_Some_2 l (e + k)) as [y Hy]; [lia|].
    assert (Hcur : (take k (drop e l) ++ drop k l) !! k = Some x).
    { rewrite lookup_app_r by lia. rewrite Hlen, Nat.sub_diag.
      by rewrite lookup_drop, Nat.add_0_r. }
    rewrite Hcur. mstep.
    rewrite decide_True
      by (rewrite length_app, Hlen, length_drop; lia).
    mstep. rewrite decide_False by lia.
    rewrite list_lookup_insert_ne by lia.
    rewrite lookup_app_r by lia. rewrite Hlen, lookup_drop.
    replace (k + (e + k - k))%nat with (e + k)%nat by lia.
    rewrite Hy. mstep. unfold assign.
    rewrite clone_Ok by (rewrite Forall_forall in Hl;
                         by eapply Hl, list_elem_of_lookup_2).
    mstep. cbn [store].
    rewrite decide_True
      by (rewrite length_insert, length_app, Hlen, length_drop; lia).
    rewrite list_insert_insert_eq.
    rewrite insert_app_r_alt by lia. rewrite Hlen, Nat.sub_diag.
    rewrite (drop_S l x k Hx). cbn [insert list_insert].
    replace (take k (drop e l) ++ y :: drop (S k) l)
      with (take (S k) (drop e l) ++ drop (S k) l).
    + mstep. rewrite (IH (S k)) by lia.
      by replace (S k + n)%nat with (k + S n)%nat by lia.
    + rewrite (take_S_r _ _ y) by (by rewrite lookup_drop).
      by rewrite <- app_assoc.
Qed.

(** With [start = 0 < end_] the loop of [trim_list] copies every element
    behind the range down by [end_] places, and the range is removed. *)
Lemma trim_list_from_zero (l : list AttributeType) (e : nat) :
  (0 < e <= length l)%nat ->
  Z.of_nat (length l) < 2 ^ 32 ->
  Forall (fun x => constructible x = true) l ->
  trim_list 0 e (Attr_List l) = Ok (Attr_List (drop e l)) [].
Proof.
  intros He Hfit Hl. unfold trim_list. cbn [size].
  rewrite !wrap32u_small by lia.
  replace (Z.to_nat (Z.of_nat (length l) - Z.of_nat e - Z.of_nat 0))
    with (length l - e)%nat by lia.
  pose proof (trim_loop_from_zero l e He Hl (length l - e) 0 eq_refl) as Hrun.
  rewrite take_0, drop_0 in Hrun. cbn [app Nat.add] in Hrun.
  rewrite Hrun. mstep. unfold shrink, ret. do 2 f_equal.
  rewrite wrap32u_small
    by (rewrite length_app, length_take, !length_drop; lia).
  replace (Z.to_nat _) with (length (take (length l - e) (drop e l)))
    by (rewrite length_app, !length_take, !length_drop; lia).
  rewrite take_app_length. apply take_ge. rewrite length_drop. lia.
Qed.

(** C4. [trim_list(1, 2)] on the list [0, 1, 2, 3, 4] should remove the
    element at index 1 and keep [0, 2, 3, 4].  The loop counter starts at
    [start] instead of 0, so the copy begins at index [2 * start]: the
    element at index 2 is overwritten and the result is [0, 1, 3, 4]. *)
Theorem trim_list_shifts_from_wrong_index :
  let l := map Attr_Integer [0; 1; 2; 3; 4] in
  trim_list 1 2 (Attr_List l)
  = Ok (Attr_List (map Attr_Integer [0; 1; 3; 4])) []
  /\ take 1 l ++ drop 2 l = map Attr_Integer [0; 2; 3; 4].
Proof. split; reflexivity. Qed.

(** ** Byte access *)

Lemma op_call_in_range (d : list Byte.byte) (i : nat) :
  (i < length d)%nat ->
  op_call (Attr_Data d) i
  = Ok (if decide (8 < length d)%nat then data i else data_bytes i) [].
Proof.
  intros Hi. unfold op_call. simpl.
  rewrite decide_False by lia. by case_decide.
Qed.

Lemma op_call_beyond (d : list Byte.byte) (i : nat) :
  (length d < i)%nat ->
  op_call (Attr_Data d) i
  = Ok (data 0) ["Data index '%d' out of range."%string].
Proof. intros Hi. unfold op_call. simpl. by rewrite decide_True by lia. Qed.

(** C5. The index that equals the size is out of range, yet the test
    [idx > size()] lets it through: on three bytes, index 3 is served from
    the inline array without a diagnostic and reads the zero behind the
    data, not the first byte.  A larger index is reported, and answered
    with [u_.data[0]]: a read through the heap pointer, which three bytes
    kept inline do not have. *)
Theorem byte_at_size_is_not_reported :
  let a := Attr_Data [Byte.x01; Byte.x02; Byte.x03] in
  size a = 3%nat
  /\ op_call a 3 = Ok (data_bytes 3) []
  /\ load_byte a (data_bytes 3) = Ok Byte.x00 []
  /\ load_byte a (data_bytes 0) = Ok Byte.x01 []
  /\ op_call a 4 = Ok (data 0) ["Data index '%d' out of range."%string]
  /\ load_byte a (data 0) = Undefined.
Proof. repeat split. Qed.

(** ** sort on another kind *)

(** C3. [sort] reports that the attribute is no list and goes on to
    [quicksort].  On a dictionary of two pairs whose first value orders
    after the second, [partition] ends with [swap_list_item(0, 1)], which
    exchanges slots of [u_.list] while the union holds [u_.dict]: the
    call is no no-op. *)
Theorem sort_of_dict_reaches_swap :
  let a := Attr_Dict [(Attr_String (txt "a"), Attr_String (txt "z"));
                      (Attr_String (txt "c"), Attr_String (txt "d"))] in
  is_list a = false
  /\ partition a 0 1 0 = Undefined
  /\ sort 0 a = Undefined.
Proof. repeat split. Qed.

(** ** The decoder on particular inputs *)

(** C2. The branch for [None] advances over the four characters and
    leaves [out] as it was: inside a list, where one [new_item] serves
    every element, the text [[1,None]] decodes to the list of 1 and 1. *)
Theorem none_keeps_the_previous_item
    (IFACE_SERVICE : text) (RISCV_get_service : text -> option IFace) :
  string_to_attribute IFACE_SERVICE RISCV_get_service 100
    (Ptr (txt "None,")) (Attr_Integer 1)
  = Ok (Ptr (txt ","), Attr_Integer 1) []
  /\ from_config IFACE_SERVICE RISCV_get_service 100 (txt "[1,None]")
       default_attribute
     = Ok (Attr_List [Attr_Integer 1; Attr_Integer 1]) [].
Proof. split; reflexivity. Qed.

(** C9. The two-character loop of a data token reads and steps twice
    whatever the characters are, the terminating NUL included; on the
    truncated token made of an opening parenthesis and one digit the
    position is one beyond the terminator after the loop, and the decoder
    goes on to read there. *)
Theorem data_token_passes_the_terminator
    (IFACE_SERVICE : text) (RISCV_get_service : text -> option IFace) :
  (forall c s,
      read_hex_pair (Ptr (c :: s))
      = Ok (advance 2 (Ptr (c :: s)), hex_step (hex_step 0 c) (hd NUL s)) [])
  /\ read_hex_pair (Ptr (txt "A")) = Ok (Beyond 1, 240) []
  /\ (forall fuel out,
        string_to_attribute IFACE_SERVICE RISCV_get_service (2 + fuel)
          (Ptr (txt "(A")) out
        = Overrun 1).
Proof.
  split; [|split].
  - intros c [|c' s]; reflexivity.
  - reflexivity.
  - intros fuel out. reflexivity.
Qed.

(** ** The order used by partition *)

Lemma strcmp_flip a b : strcmp b a = - strcmp a b.
Proof.
  revert b. induction a as [|c a IH]; intros [|d b]; simpl; try done.
  destruct (Z.ltb_spec (code c) (code d)), (Z.ltb_spec (code d) (code c));
    try lia; auto.
Qed.

Lemma strcmp_trans a b c :
  strcmp a b <= 0 -> strcmp b c <= 0 -> strcmp a c <= 0.
Proof.
  revert b c. induction a as [|x a IH]; intros [|y b] [|z c]; simpl;
    try done; try lia.
  destruct (Z.ltb_spec (code x) (code y)), (Z.ltb_spec (code y) (code x)),
    (Z.ltb_spec (code y) (code z)), (Z.ltb_spec (code z) (code y)),
    (Z.ltb_spec (code x) (code z)), (Z.ltb_spec (code z) (code x));
    try lia; eauto.
Qed.

Lemma attr_le_total K x y :
  sortable_kind K -> K x = true -> K y = true ->
  attr_le x y = false -> attr_le y x = true.
Proof.
  intros [->|[->| ->]]; destruct x; try done; destruct y; try done; simpl;
    intros _ _ H.
  - apply Z.leb_gt in H. apply Z.leb_le. rewrite strcmp_flip. lia.
  - apply Z.leb_gt in H. apply Z.leb_le. lia.
  - apply Z.leb_gt in H. apply Z.leb_le. lia.
Qed.

Lemma attr_le_trans x y z :
  attr_le x y = true -> attr_le y z = true -> attr_le x z = true.
Proof.
  destruct x; try done; destruct y; try done; destruct z; try done; simpl;
    rewrite !Z.leb_le; try lia. apply strcmp_trans.
Qed.

Lemma to_unsigned_nat (n : nat) :
  Z.of_nat n < 2 ^ 32 -> to_unsigned (Z.of_nat n) = n.
Proof.
  intros H. unfold to_unsigned. rewrite wrap32u_small by lia.
  apply Nat2Z.id.
Qed.

(** ** Swapping two slots of a list *)

Lemma lookup_second_segment {T} (A B C : list T) x y :
  (A ++ x :: B ++ y :: C) !! (length A + 1 + length B)%nat = Some y.
Proof.
  induction A as [|a A IH]; simpl; [|done].
  by apply list_lookup_middle.
Qed.

Lemma insert_two_segments {T} (A B C : list T) x y :
  <[(length A + 1 + length B)%nat := x]>
    (<[length A := y]> (A ++ x :: B ++ y :: C))
  = A ++ y :: B ++ x :: C.
Proof.
  induction A as [|a A IH]; simpl; [|by rewrite IH].
  f_equal. rewrite insert_app_r_alt by done. by rewrite Nat.sub_diag.
Qed.

Lemma swap_list_item_segments (A B C : list AttributeType) x y n m :
  n = length A -> m = (length A + 1 + length B)%nat ->
  swap_list_item n m (Attr_List (A ++ x :: B ++ y :: C))
  = Ok (Attr_List (A ++ y :: B ++ x :: C)) [].
Proof.
  intros -> ->. unfold swap_list_item.
  rewrite decide_False by lia.
  rewrite list_lookup_middle by done.
  rewrite lookup_second_segment, insert_two_segments. done.
Qed.

Lemma do_swap_in_list K (l : list AttributeType) (j hi : nat) x pv lst_idx :
  sortable_kind K -> K x = true -> K pv = true ->
  l !! j = Some x -> l !! hi = Some pv ->
  Z.of_nat j < 2 ^ 32 ->
  do_swap (Attr_List l) (ListItem hi) lst_idx (Z.of_nat j)
  = Ok (Some (attr_le x pv)) [].
Proof.
  intros HK Hx Hpv Hj Hhi Hfit. unfold do_swap, op_index. simpl.
  rewrite bind_ret. simpl. rewrite to_unsigned_nat, Hj by done.
  mstep.
  destruct HK as [->|[->| ->]]; destruct x; try done; destruct pv; try done;
    simpl; rewrite ?Hhi; by msimpl.
Qed.

(** ** partition

    While the loop runs the range is made of the elements found at most
    the pivot, the elements found above it, the elements still to be
    looked at and the pivot. *)

Ltac solve_length :=
  rewrite ?length_app in *; simpl length in *; first [done | lia].

Lemma partition_loop_segments K lst_idx pv (pre post : list AttributeType) :
  sortable_kind K -> K pv = true ->
  forall rest smalls larges (hi : nat) (i j : Z),
    Forall (fun x => K x = true) rest ->
    Forall (fun x => attr_le x pv = true) smalls ->
    Forall (fun x => attr_le x pv = false) larges ->
    hi = (length pre + length smalls + length larges + length rest)%nat ->
    Z.of_nat hi < 2 ^ 32 ->
    i = Z.of_nat (length pre + length smalls) - 1 ->
    j = Z.of_nat (length pre + length smalls + length larges) ->
    exists smalls' larges',
      partition_loop (length rest)
        (Attr_List (pre ++ smalls ++ larges ++ rest ++ pv :: post))
        (ListItem hi) lst_idx i j
      = Ok (inl (Attr_List (pre ++ smalls' ++ larges' ++ pv :: post),
                 Z.of_nat (length pre + length smalls') - 1)) []
      /\ smalls ++ larges ++ rest ≡ₚ smalls' ++ larges'
      /\ Forall (fun x => attr_le x pv = true) smalls'
      /\ Forall (fun x => attr_le x pv = false) larges'.
Proof.
  intros HK Hpv rest.
  induction rest as [|x rest IH];
    intros smalls larges hi i j HKr Hs Hl Hhi Hfit Hi Hj.
  - exists smalls, larges. simpl. rewrite app_nil_r. subst i. done.
  - apply Forall_cons in HKr as [HKx HKr]. simpl in Hhi.
    set (l := pre ++ smalls ++ larges ++ (x :: rest) ++ pv :: post).
    assert (Hpiv : l !! hi = Some pv).
    { subst l.
      replace (pre ++ smalls ++ larges ++ (x :: rest) ++ pv :: post)
        with ((pre ++ smalls ++ larges ++ x :: rest) ++ pv :: post)
        by (by rewrite <- !app_assoc).
      apply list_lookup_middle. rewrite !length_app. simpl. lia. }
    assert (Hx : l !! (length pre + length smalls + length larges)%nat
                 = Some x).
    { subst l.
      replace (pre ++ smalls ++ larges ++ (x :: rest) ++ pv :: post)
        with ((pre ++ smalls ++ larges) ++ x :: rest ++ pv :: post)
        by (by rewrite <- !app_assoc).
      apply list_lookup_middle. rewrite !length_app. lia. }
    change (length (x :: rest)) with (S (length rest)).
    cbn [partition_loop]. subst j.
    rewrite (do_swap_in_list K l _ hi x pv) by (done || lia).
    mstep. destruct (attr_le x pv) eqn:Hle.
    + assert (Hi1 : to_unsigned (i + 1) = (length pre + length smalls)%nat).
      { subst i. rewrite <- to_unsigned_nat by lia. f_equal. lia. }
      rewrite Hi1, to_unsigned_nat by lia.
      destruct larges as [|y ls].
      * unfold swap_list_item. rewrite decide_True by (simpl; lia). mstep.
        destruct (IH (smalls ++ [x]) [] hi (i + 1)
                    (Z.of_nat (length pre + length smalls
                              + length (@nil AttributeType)) + 1))
          as (s' & g' & Hrun & Hperm & Hs' & Hg');
          [ done | by apply Forall_app_2; [|apply Forall_singleton] | done
          | solve_length | done
          | solve_length
          | solve_length |].
        exists s', g'. split; [|split; [|done]].
        -- rewrite <- Hrun. subst l. simpl. by rewrite <- !app_assoc.
        -- rewrite <- Hperm. simpl. by rewrite <- !app_assoc.
      * subst l.
        replace (pre ++ smalls ++ (y :: ls) ++ (x :: rest) ++ pv :: post)
          with ((pre ++ smalls) ++ y :: ls ++ x :: rest ++ pv :: post)
          by (by rewrite <- !app_assoc).
        rewrite (swap_list_item_segments (pre ++ smalls) ls _ y x)
          by (rewrite ?length_app; simpl; lia).
        mstep. apply Forall_cons in Hl as [Hy Hl].
        destruct (IH (smalls ++ [x]) (ls ++ [y]) hi (i + 1)
                    (Z.of_nat (length pre + length smalls + length (y :: ls))
                     + 1))
          as (s' & g' & Hrun & Hperm & Hs' & Hg');
          [ done | by apply Forall_app_2; [|apply Forall_singleton]
          | by apply Forall_app_2; [|apply Forall_singleton]
          | solve_length | done
          | solve_length
          | solve_length |].
        exists s', g'. split; [|split; [|done]].
        -- rewrite <- Hrun. simpl. by rewrite <- !app_assoc.
        -- rewrite <- Hperm. rewrite <- !app_assoc. simpl.
           apply Permutation_app_head.
           rewrite <- (Permutation_middle ls rest x).
           rewrite <- (Permutation_middle ls rest y). apply perm_swap.
    + destruct (IH smalls (larges ++ [x]) hi i
                  (Z.of_nat (length pre + length smalls + length larges) + 1))
        as (s' & g' & Hrun & Hperm & Hs' & Hg');
        [ done | done | by apply Forall_app_2; [|apply Forall_singleton]
        | solve_length | done | done
        | solve_length |].
      exists s', g'. split; [|split; [|done]].
      * rewrite <- Hrun. subst l. simpl. by rewrite <- !app_assoc.
      * rewrite <- Hperm. by rewrite <- !app_assoc.
Qed.

Lemma partition_segments K lst_idx (pre mid post : list AttributeType) pv :
  sortable_kind K -> Forall (fun x => K x = true) mid -> K pv = true ->
  Z.of_nat (length pre + length mid) < 2 ^ 32 ->
  exists smalls larges,
    partition (Attr_List (pre ++ mid ++ pv :: post))
      (Z.of_nat (length pre)) (Z.of_nat (length pre + length mid)) lst_idx
    = Ok (Attr_List (pre ++ smalls ++ pv :: larges ++ post),
          Z.of_nat (length pre + length smalls)) []
    /\ mid ≡ₚ smalls ++ larges
    /\ Forall (fun x => attr_le x pv = true) smalls
    /\ Forall (fun x => attr_le x pv = false) larges.
Proof.
  intros HK Hmid Hpv Hfit. unfold partition, op_index. simpl. mstep.
  rewrite to_unsigned_nat by done.
  replace (Z.to_nat (Z.of_nat (length pre + length mid)
                     - Z.of_nat (length pre)))
    with (length mid) by lia.
  destruct (partition_loop_segments K lst_idx pv pre post HK Hpv mid [] []
              (length pre + length mid)%nat (Z.of_nat (length pre) - 1)
              (Z.of_nat (length pre)))
    as (s' & g' & Hrun & Hperm & Hs' & Hg'); try done; try solve_length.
  simpl in Hrun, Hperm. rewrite Hrun. mstep.
  assert (Hlen : length mid = (length s' + length g')%nat)
    by (by rewrite Hperm, length_app).
  replace (Z.of_nat (length pre + length s') - 1 + 1)
    with (Z.of_nat (length pre + length s')) by lia.
  rewrite to_unsigned_nat by lia.
  destruct g' as [|y ls].
  - exists s', []. unfold swap_list_item.
    rewrite decide_True by solve_length. mstep. by rewrite app_nil_r in *.
  - replace (pre ++ s' ++ (y :: ls) ++ pv :: post)
      with ((pre ++ s') ++ y :: ls ++ pv :: post)
      by (by rewrite <- !app_assoc).
    rewrite (swap_list_item_segments (pre ++ s') ls post y pv)
      by solve_length.
    mstep. exists s', (ls ++ [y]).
    apply Forall_cons in Hg' as [Hy Hg']. split; [|split; [|split]].
    + by rewrite <- !app_assoc.
    + rewrite Hperm. apply Permutation_app_head.
      by rewrite <- Permutation_cons_append.
    + done.
    + by apply Forall_app_2; [|apply Forall_singleton].
Qed.

(** ** quicksort *)

Lemma quicksort_unfold fuel A lo hi lst_idx :
  quicksort fuel A lo hi lst_idx
  = if lo >=? hi then ret A
    else match fuel with
         | O => OutOfFuel
         | S fuel' =>
             '(A1, p) <- partition A lo hi lst_idx ;;
             A2 <- quicksort fuel' A1 lo (p - 1) lst_idx ;;
             quicksort fuel' A2 (p + 1) hi lst_idx
         end.
Proof. by destruct fuel. Qed.

Lemma quicksort_segments K lst_idx :
  sortable_kind K ->
  forall fuel (pre mid post : list AttributeType),
    Forall (fun x => K x = true) mid ->
    (length mid <= S fuel)%nat ->
    Z.of_nat (length pre + length mid) < 2 ^ 32 ->
    exists mid',
      quicksort fuel (Attr_List (pre ++ mid ++ post))
        (Z.of_nat (length pre)) (Z.of_nat (length pre + length mid) - 1)
        lst_idx
      = Ok (Attr_List (pre ++ mid' ++ post)) []
      /\ mid ≡ₚ mid'
      /\ StronglySorted (fun x y => attr_le x y = true) mid'.
Proof.
  intros HK fuel.
  induction fuel as [|fuel IH]; intros pre mid post HKm Hfuel Hfit;
    rewrite quicksort_unfold.
  - exists mid. rewrite (proj2 (Z.geb_le _ _)) by lia.
    split; [done|]. split; [done|].
    destruct mid as [|x [|y mid]]; [constructor|by repeat constructor|].
    simpl in Hfuel. lia.
  - destruct (decide (length mid <= 1)%nat) as [Hshort|Hlong].
    { exists mid. rewrite (proj2 (Z.geb_le _ _)) by lia.
      split; [done|]. split; [done|].
      destruct mid as [|x [|y mid]]; [constructor|by repeat constructor|].
      simpl in Hshort. lia. }
    rewrite Z.geb_leb, (proj2 (Z.leb_gt _ _)) by lia.
    destruct (exists_last (l := mid)) as (mid0 & pv & ->);
      [by intros ->; simpl in Hlong; lia|].
    apply Forall_app in HKm as [HK0 [HKpv _]%Forall_cons].
    rewrite length_app in *. simpl length in *.
    destruct (partition_segments K lst_idx pre mid0 post pv HK HK0 HKpv)
      as (smalls & larges & Hpart & Hperm & Hs & Hl); [lia|].
    replace (pre ++ (mid0 ++ [pv]) ++ post) with (pre ++ mid0 ++ pv :: post)
      by (by rewrite <- !app_assoc).
    replace (Z.of_nat (length pre + (length mid0 + 1)) - 1)
      with (Z.of_nat (length pre + length mid0)) by lia.
    rewrite Hpart. mstep.
    assert (Hlen : length mid0 = (length smalls + length larges)%nat)
      by (by rewrite Hperm, length_app).
    assert (HKs : Forall (fun x => K x = true) smalls)
      by (rewrite Hperm in HK0; by apply Forall_app in HK0 as [? ?]).
    assert (HKl : Forall (fun x => K x = true) larges)
      by (rewrite Hperm in HK0; by apply Forall_app in HK0 as [? ?]).
    destruct (IH pre smalls (pv :: larges ++ post) HKs)
      as (smalls' & Hrun1 & Hperm1 & Hsorted1); [lia|lia|].
    rewrite Hrun1. mstep.
    assert (Hlen1 : length smalls' = length smalls) by (by rewrite Hperm1).
    destruct (IH (pre ++ smalls' ++ [pv]) larges post HKl)
      as (larges' & Hrun2 & Hperm2 & Hsorted2);
      [lia|rewrite !length_app; simpl; lia|].
    replace (Z.of_nat (length (pre ++ smalls' ++ [pv])))
      with (Z.of_nat (length pre + length smalls) + 1) in Hrun2
      by (rewrite !length_app; simpl; lia).
    replace (Z.of_nat (length (pre ++ smalls' ++ [pv]) + length larges) - 1)
      with (Z.of_nat (length pre + length mid0)) in Hrun2
      by (rewrite !length_app; simpl; lia).
    replace ((pre ++ smalls' ++ [pv]) ++ larges ++ post)
      with (pre ++ smalls' ++ pv :: larges ++ post) in Hrun2
      by (by rewrite <- !app_assoc).
    rewrite Hrun2.
    exists (smalls' ++ pv :: larges'). split; [|split].
    + by rewrite <- !app_assoc.
    + rewrite Hperm, Hperm1, Hperm2. rewrite <- !app_assoc. simpl.
      apply Permutation_app_head. symmetry. apply Permutation_cons_append.
    + assert (Hs' : Forall (fun x => attr_le x pv = true) smalls')
        by (by rewrite <- Hperm1).
      assert (Hl' : Forall (fun x => attr_le pv x = true) larges').
      { rewrite <- Hperm2. rewrite Forall_forall in Hl, HKl.
        apply Forall_forall. intros x Hx.
        apply (attr_le_total K); auto. }
      apply StronglySorted_app. split; [|split; [done|]].
      * intros x1 x2 Hx1 Hx2. rewrite Forall_forall in Hs', Hl'.
        apply elem_of_cons in Hx2 as [->|Hx2]; [by apply Hs'|].
        apply attr_le_trans with pv; auto.
      * by apply StronglySorted_cons.
Qed.

(** ** sort *)

Lemma homogeneous_kind l :
  homogeneous l = true ->
  exists K, sortable_kind K /\ Forall (fun x => K x = true) l.
Proof.
  unfold homogeneous, sortable_kind.
  intros [[H|H]%orb_prop|H]%orb_prop;
    rewrite forallb_forall in H;
    [exists is_string | exists is_int64 | exists is_uint64];
    (split; [tauto|]); apply Forall_forall; intros x Hx;
    by apply H, list_elem_of_In.
Qed.

Lemma StronglySorted_adjacent {T} (R : T -> T -> Prop) (l : list T) i x y :
  StronglySorted R l -> l !! i = Some x -> l !! S i = Some y -> R x y.
Proof.
  intros Hs. revert i. induction Hs as [|a l Hs IH Hall]; intros i; [done|].
  destruct i as [|i]; simpl.
  - intros [= ->] Hy. rewrite Forall_forall in Hall.
    apply Hall. by eapply list_elem_of_lookup_2.
  - apply IH.
Qed.

Lemma wrap32s_small z : - 2 ^ 31 <= z < 2 ^ 31 -> wrap32s z = z.
Proof. intros. unfold wrap32s. rewrite Z.mod_small by lia. lia. Qed.

(** C8, for a list of fewer than [2^31] elements.  [sort] on a list
    whose elements are all strings, all signed
    integers or all unsigned integers returns, without a diagnostic, a
    list that is a permutation of the input (the same multiset, also for
    an empty or an already sorted input) in which every element is at
    most its successor under [strcmp] or the integer order of the kind.
    The size fits the [int] that [sort] casts it to. *)
Theorem sort_homogeneous_sorted (l : list AttributeType) (key_path : Z)
    (Hkind : homogeneous l = true)
    (Hfit : Z.of_nat (length l) < 2 ^ 31) :
  exists l',
    sort key_path (Attr_List l) = Ok (Attr_List l') []
    /\ l ≡ₚ l'
    /\ (forall i x y,
          l' !! i = Some x -> l' !! S i = Some y -> attr_le x y = true).
Proof.
  destruct (homogeneous_kind l Hkind) as (K & HK & HKl).
  destruct (quicksort_segments K key_path HK (length l) [] l [] HKl)
    as (l' & Hrun & Hperm & Hsorted); [lia|simpl; lia|].
  exists l'. split; [|split; [done|]].
  - unfold sort. simpl. mstep. rewrite wrap32s_small by lia.
    simpl in Hrun. by rewrite !app_nil_r in Hrun.
  - intros i x y.
    apply (StronglySorted_adjacent (fun x y => attr_le x y = true) l' i x y
             Hsorted).
Qed.

Lemma sort_homogeneous_sorted_witness :
  exists l',
    sort 0 (Attr_List [Attr_String (txt "pear"); Attr_String (txt "apple");
                       Attr_String (txt "fig"); Attr_String (txt "apple")])
    = Ok (Attr_List l') []
    /\ l' = [Attr_String (txt "apple"); Attr_String (txt "apple");
             Attr_String (txt "fig"); Attr_String (txt "pear")].
Proof.
  destruct (sort_homogeneous_sorted
              [Attr_String (txt "pear"); Attr_String (txt "apple");
               Attr_String (txt "fig"); Attr_String (txt "apple")] 0)
    as (l' & Hrun & _ & _); [reflexivity | simpl; lia |].
  exists l'. split; [exact Hrun|].
  revert Hrun. vm_compute. by intros [= <-].
Defined.

Lemma forallb_replicate {A} (f : A -> bool) (n : nat) (x : A) :
  f x = true -> forallb f (replicate n x) = true.
Proof. intros Hx. induction n as [|n IH]; [done|]. cbn. by rewrite Hx. Qed.

(** Above [2^31 - 1] elements the [int] that [sort] casts the size to is
    negative: [quicksort] returns at once. *)
Lemma sort_beyond_int (idx : Z) (l : list AttributeType) :
  2 ^ 31 <= Z.of_nat (length l) < 2 ^ 32 ->
  sort idx (Attr_List l) = Ok (Attr_List l) [].
Proof.
  intros Hlen. unfold sort. cbn [is_list size]. mstep.
  rewrite quicksort_unfold.
  assert (Hcast : wrap32s (Z.of_nat (length l))
                  = Z.of_nat (length l) - 2 ^ 32).
  { unfold wrap32s.
    rewrite <- (Z.mod_add _ (-1) (2 ^ 32)) by lia.
    rewrite Z.mod_small by lia. lia. }
  rewrite Hcast. by rewrite (proj2 (Z.geb_le _ _)) by lia.
Qed.

(** C8, as stated for every list, fails on a list of more elements than
    an [int] counts: [2^31 + 1] signed integers, the first greater than
    the second, fit the [unsigned] size, and [sort] returns them in the
    order they came in. *)
Lemma sort_leaves_long_list_unsorted :
  let l := Attr_Integer 1 :: replicate (Z.to_nat (2 ^ 31)) (Attr_Integer 0) in
  homogeneous l = true
  /\ Z.of_nat (length l) < 2 ^ 32
  /\ sort 0 (Attr_List l) = Ok (Attr_List l) []
  /\ l !! 0%nat = Some (Attr_Integer 1)
  /\ l !! 1%nat = Some (Attr_Integer 0)
  /\ attr_le (Attr_Integer 1) (Attr_Integer 0) = false.
Proof.
  cbv zeta.
  assert (Hn : Z.of_nat (Z.to_nat (2 ^ 31)) = 2 ^ 31)
    by (apply Z2Nat.id; lia).
  revert Hn. generalize (Z.to_nat (2 ^ 31)). intros n Hn.
  assert (Hlen : Z.of_nat (length (Attr_Integer 1
                                   :: replicate n (Attr_Integer 0)))
                 = 2 ^ 31 + 1).
  { cbn [length]. rewrite length_replicate. lia. }
  split; [|split; [|split; [|split; [|split]]]].
  - unfold homogeneous. cbn [forallb is_int64].
    rewrite (forallb_replicate is_int64) by done.
    by rewrite orb_true_r.
  - lia.
  - apply sort_beyond_int. lia.
  - done.
  - destruct n as [|n]; [lia|]. done.
  - done.
Qed.

(** ** Decimal digits *)

Lemma code_chr z : 0 <= z < 256 -> code (chr z) = z.
Proof.
  intros H. unfold code, chr. rewrite N_ascii_embedding by lia. lia.
Qed.

Lemma digit_value_dec k :
  0 <= k <= 9 -> digit_value (chr (code "0" + k)) = Some k.
Proof.
  intros H. unfold digit_value.
  rewrite code_chr by (change (code "0") with 48; lia).
  change (code "0") with 48. change (code "9") with 57.
  rewrite (proj2 (Z.leb_le _ _)), (proj2 (Z.leb_le _ _)) by lia.
  simpl. f_equal. lia.
Qed.

Lemma is_hex_char_dec k :
  0 <= k <= 9 -> is_hex_char (chr (code "0" + k)) = true.
Proof.
  intros H. unfold is_hex_char.
  rewrite code_chr by (change (code "0") with 48; lia).
  change (code "0") with 48. change (code "9") with 57.
  by rewrite (proj2 (Z.leb_le _ _)), (proj2 (Z.leb_le _ _)) by lia.
Qed.

Lemma dec_digits_S fuel n acc :
  dec_digits (S fuel) n acc
  = if n <? 10 then chr (code "0" + n mod 10) :: acc
    else dec_digits fuel (n / 10) (chr (code "0" + n mod 10) :: acc).
Proof. reflexivity. Qed.

(** The digits [dec_digits] puts in front of [acc]: their number, their
    value, and no zero in front of a positive number. *)
Lemma dec_digits_spec fuel n acc :
  0 <= n < 10 ^ Z.of_nat (S fuel) ->
  exists ks : list Z,
    dec_digits (S fuel) n acc = map (fun k => chr (code "0" + k)) ks ++ acc
    /\ ks <> []
    /\ (length ks <= S fuel)%nat
    /\ Forall (fun k => 0 <= k <= 9) ks
    /\ (forall a, fold_left (fun acc d => acc * 10 + d) ks a
                  = a * 10 ^ Z.of_nat (length ks) + n)
    /\ (hd 0 ks = 0 -> ks = [0]).
Proof.
  revert n acc. induction fuel as [|fuel IH]; intros n acc Hn;
    rewrite dec_digits_S; destruct (Z.ltb_spec n 10) as [Hsmall|Hbig];
    try (exists [n]; rewrite Z.mod_small by lia;
         split; [done|]; split; [done|]; split; [simpl; lia|];
         split; [repeat constructor; lia|];
         split; [intros a; simpl; lia|simpl; by intros ->]).
  destruct (IH (n / 10) (chr (code "0" + n mod 10) :: acc))
    as (ks & Hrun & Hne & Hlen & Hall & Hval & Hhd).
  { split; [apply Z.div_pos; lia|].
    apply Z.div_lt_upper_bound; [lia|].
    rewrite Nat2Z.inj_succ, Z.pow_succ_r in Hn by lia. lia. }
  exists (ks ++ [n mod 10]). rewrite Hrun.
  rewrite map_app, <- app_assoc. simpl. repeat split.
  - by destruct ks.
  - rewrite length_app. simpl. lia.
  - apply Forall_app_2; [done|]. apply Forall_singleton.
    pose proof (Z.mod_pos_bound n 10). lia.
  - intros a. rewrite fold_left_app. simpl. rewrite Hval.
    rewrite length_app. simpl.
    rewrite Nat2Z.inj_add, Z.pow_add_r by lia.
    change (10 ^ Z.of_nat 1) with 10.
    pose proof (Z.div_mod n 10). lia.
  - destruct ks as [|k ks]; [done|]. simpl. intros Hk.
    specialize (Hhd Hk). injection Hhd as -> ->.
    specialize (Hval 0). simpl in Hval.
    assert (n / 10 = 0) by lia.
    assert (0 < n / 10) by (apply Z.div_str_pos; lia). lia.
Qed.

Lemma code_digit k : 0 <= k <= 9 -> code (chr (code "0" + k)) = 48 + k.
Proof. intros H. by rewrite code_chr by (change (code "0") with 48; lia). Qed.

(** [c] is not the character constant [d]: their codes differ. *)
Ltac code_differs c d :=
  let E := fresh in
  let v := eval vm_compute in (code d) in
  intros E; apply (f_equal code) in E;
  first [ vm_compute in E; discriminate E
        | change (code d) with v in E;
          rewrite ?code_digit in E by lia; lia ].

Ltac code_cases :=
  repeat match goal with
  | |- context [bool_decide (?c = ?d)] =>
      rewrite (bool_decide_eq_false_2 (c = d)) by code_differs c d
  | |- context [decide (?c = ?d)] =>
      rewrite (decide_False (P := c = d)) by code_differs c d
  end.

Lemma digits_prefix_dec ks :
  Forall (fun k => 0 <= k <= 9) ks ->
  digits_prefix 10 (map (fun k => chr (code "0" + k)) ks) = ks.
Proof.
  induction 1 as [|k ks Hk _ IH]; simpl; [done|].
  rewrite digit_value_dec by done.
  rewrite (proj2 (Z.ltb_lt _ _)) by lia. by rewrite IH.
Qed.

Lemma strtoull_decimal ks :
  ks <> [] -> Forall (fun k => 0 <= k <= 9) ks ->
  (hd 0 ks = 0 -> ks = [0]) ->
  strtoull (map (fun k => chr (code "0" + k)) ks)
  = Z.min (fold_left (fun acc d => acc * 10 + d) ks 0) ULLONG_MAX.
Proof.
  intros Hne Hall Hhd. destruct ks as [|k ks]; [done|].
  destruct (decide (k = 0)) as [->|Hk].
  - rewrite (Hhd eq_refl). reflexivity.
  - assert (Hmain : strtoull (map (fun k => chr (code "0" + k)) (k :: ks))
              = Z.min (accumulate 10 (digits_prefix 10
                        (map (fun k => chr (code "0" + k)) (k :: ks))))
                  ULLONG_MAX).
    { unfold strtoull. apply Forall_cons in Hall as [Hk9 _].
      destruct ks as [|k1 [|k2 ks]]; simpl map; cbv beta iota;
        by code_cases. }
    rewrite Hmain, digits_prefix_dec by done. done.
Qed.

Lemma scan_digits_app t rest :
  Forall (fun c => is_hex_char c = true) t ->
  delimited rest = true ->
  scan_digits (t ++ rest) = (t, rest).
Proof.
  intros Ht Hrest. induction Ht as [|c t Hc _ IH]; simpl.
  - destruct rest as [|c rest]; [done|]. simpl in Hrest.
    apply orb_prop in Hrest as [[H|H]%orb_prop|H];
      apply bool_decide_eq_true in H; by subst c.
  - by rewrite Hc, IH.
Qed.

Lemma wrap64_signed v :
  int64_range v = true -> wrap64s (wrap64u v) = v.
Proof.
  unfold int64_range, wrap64s, wrap64u.
  intros [H1%Z.leb_le H2%Z.ltb_lt]%andb_prop.
  destruct (Z.neg_nonneg_cases v) as [Hneg|Hpos].
  - rewrite <- (Z.mod_add v 1 (2 ^ 64)) by lia.
    rewrite (Z.mod_small (v + 1 * 2 ^ 64)) by lia.
    rewrite <- (Z.mod_add _ (-1) (2 ^ 64)) by lia.
    rewrite Z.mod_small by lia. lia.
  - rewrite (Z.mod_small v) by lia. rewrite Z.mod_small by lia. lia.
Qed.

Lemma integer_literal_decimal v rest :
  int64_range v = true -> delimited rest = true ->
  exists c t,
    write_uint64 (wrap64u v) = c :: t
    /\ 48 <= code c <= 57
    /\ integer_literal (Ptr (write_uint64 (wrap64u v) ++ rest))
       = Ok (Ptr rest, v) [].
Proof.
  intros Hv Hrest. unfold write_uint64.
  assert (Hn : 0 <= wrap64u v < 10 ^ Z.of_nat 20).
  { unfold wrap64u. pose proof (Z.mod_pos_bound v (2 ^ 64)).
    change (10 ^ Z.of_nat 20) with 100000000000000000000. lia. }
  destruct (dec_digits_spec 19 (wrap64u v) [] Hn)
    as (ks & Hrun & Hne & Hlen & Hall & Hval & Hhd).
  rewrite Hrun, app_nil_r. destruct ks as [|k ks]; [done|].
  pose proof (Forall_inv Hall) as Hk. simpl in Hk.
  exists (chr (code "0" + k)), (map (fun k => chr (code "0" + k)) ks).
  split; [done|]. split.
  { rewrite code_digit by done. lia. }
  assert (Hscan : scan_digits (map (fun k => chr (code "0" + k)) (k :: ks)
                               ++ rest)
                  = (map (fun k => chr (code "0" + k)) (k :: ks), rest)).
  { apply scan_digits_app; [|done]. apply Forall_map.
    eapply Forall_impl; [exact Hall|]. intros k' Hk'.
    by apply is_hex_char_dec. }
  assert (Hconv : wrap64s (strtoull (map (fun k => chr (code "0" + k))
                                       (k :: ks))) = v).
  { rewrite strtoull_decimal by done. rewrite Hval. simpl (0 * _ + _).
    unfold ULLONG_MAX. rewrite Z.min_l.
    - by apply wrap64_signed.
    - unfold wrap64u. pose proof (Z.mod_pos_bound v (2 ^ 64)). lia. }
  unfold integer_literal. simpl map. simpl app. simpl peek. mstep.
  destruct (decide (k = 0)) as [->|Hk0].
  - pose proof (Hhd eq_refl) as Hks. injection Hks as ->.
    simpl map in *. simpl app in *.
    change (chr (code "0" + 0)) with "0" in *.
    rewrite decide_True by done. simpl next.
    assert (Hx : bind (peek (Ptr rest))
                   (fun c1 => ret (bool_decide (c1 = "x"))) = Ok false []).
    { destruct rest as [|c1 rest]; [done|]. simpl. mstep.
      simpl in Hrest.
      apply orb_prop in Hrest as [[H|H]%orb_prop|H];
        apply bool_decide_eq_true in H; by subst c1. }
    simpl in Hx. rewrite Hx. mstep.
    rewrite Hscan. rewrite decide_True by (simpl; lia).
    cbn [app]. by rewrite Hconv.
  - code_cases. mstep. simpl app in Hscan. rewrite Hscan.
    rewrite decide_True by (simpl; rewrite length_map; simpl in Hlen; lia).
    cbn [app]. by rewrite Hconv.
Qed.

(** ** A dictionary at the limit of [size_] *)










(** ** The encoder on stable values *)



Lemma write_byte_at_lookup (d : list Byte.byte) n b :
  d !! n = Some b -> write_byte_at (Attr_Data d) n = Ok (write_byte b) [].
Proof.
  intros Hn. pose proof (lookup_lt_Some _ _ _ Hn) as Hlt.
  unfold write_byte_at. rewrite op_call_in_range by done.
  mstep. case_decide; simpl.
  - rewrite decide_True by done. rewrite Hn. by msimpl.
  - rewrite decide_True by lia. rewrite decide_True by lia. mstep.
    by rewrite (nth_lookup_Some _ _ _ _ Hn).
Qed.

Lemma data_items_commas (d1 d2 d3 : list Byte.byte) :
  data_items (length d2) (length d1) (Attr_Data (d1 ++ d2 ++ d3))
  = Ok (concat (map (fun b => write_byte b ++ [","]) d2)) [].
Proof.
  revert d1. induction d2 as [|b d2 IH]; intros d1; simpl; [done|].
  rewrite (write_byte_at_lookup _ _ b) by (by apply list_lookup_middle).
  mstep. specialize (IH (d1 ++ [b])).
  rewrite length_app, Nat.add_1_r, <- app_assoc in IH. simpl in IH.
  rewrite IH. by mstep.
Qed.



(** ** The decoder on the tokens of stable values *)



Section Decoder.
Variable IFACE_SERVICE : text.
Variable RISCV_get_service : text -> option IFace.

Local Notation "'s2a'" :=
  (string_to_attribute IFACE_SERVICE RISCV_get_service).




Lemma decode_integer fuel v rest out :
  int64_range v = true -> delimited rest = true ->
  s2a (S fuel) (Ptr (text_of (Attr_Integer v) ++ rest)) out
  = Ok (Ptr rest, Attr_Integer v) [].
Proof.
  intros Hv Hrest.
  destruct (integer_literal_decimal v rest Hv Hrest)
    as (c & t & Ht & Hc & Hlit).
  simpl text_of. revert Hlit. rewrite Ht. intros Hlit.
  cbn [string_to_attribute skip_special_symbols skip_special app].
  assert (Hsp : is_special c = false) by (unfold is_special; by code_cases).
  rewrite Hsp. mstep. cbn [peek]. mstep. code_cases. cbn [orb].
  cbn [skip_special_symbols skip_special]. rewrite Hsp. mstep.
  cbn [literal_at txt list_ascii_of_string peek]. mstep. code_cases.
  mstep. mstep. code_cases. mstep. mstep. code_cases. mstep.
  cbn [app] in Hlit. rewrite Hlit. by mstep.
Qed.












Lemma realloc_list_grow (acc : list AttributeType) :
  realloc_list (size (Attr_List acc) + 1) (Attr_List acc)
  = Ok (Attr_List (acc ++ [Attr_Invalid])) [].
Proof.
  cbn [realloc_list size]. rewrite take_ge by lia.
  by replace (length acc + 1 - length acc)%nat with 1%nat by lia.
Qed.

Lemma assign_last_item (acc : list AttributeType) y x :
  constructible x = true ->
  assign (Attr_List (acc ++ [y])) (ListItem (length acc)) x
  = Ok (Attr_List (acc ++ [x])) [].
Proof.
  intros Hx. unfold assign. rewrite clone_Ok by done. mstep. cbn [store].
  rewrite decide_True by (rewrite length_app; simpl; lia).
  unfold ret. do 2 f_equal.
  rewrite insert_app_r_alt by done. by rewrite Nat.sub_diag.
Qed.

Lemma distinct_keys_string_keyed d :
  distinct_keys d = true -> string_keyed d = true.
Proof.
  induction d as [|[k v] d IH]; [done|]. simpl.
  intros [Hk Hd]%andb_prop. unfold key_ in *. simpl in *.
  destruct k; try done. by apply IH.
Qed.

Lemma key_absent_app k d1 d2 :
  key_absent k (d1 ++ d2) = key_absent k d1 && key_absent k d2.
Proof. unfold key_absent. by rewrite forallb_app. Qed.


Lemma op_index_key_absent (acc : list AttributePairType) k :
  c_string k = true -> string_keyed acc = true -> key_absent k acc = true ->
  op_index_key k (Attr_Dict acc)
  = Ok (Attr_Dict (acc ++ [(Attr_String k, Attr_Nil)]),
        DictValue (length acc)) [].
Proof.
  intros Hk Hacc Habsent. unfold op_index_key.
  rewrite find_key_absent by done. mstep. cbn [make_string make_nil].
  by rewrite c_str_c_string.
Qed.

Lemma assign_last_value (acc : list AttributePairType) k y x :
  constructible x = true ->
  assign (Attr_Dict (acc ++ [(k, y)])) (DictValue (length acc)) x
  = Ok (Attr_Dict (acc ++ [(k, x)])) [].
Proof.
  intros Hx. unfold assign. rewrite clone_Ok by done. mstep. cbn [store].
  rewrite list_lookup_middle by done. unfold ret. do 2 f_equal.
  rewrite insert_app_r_alt by done. by rewrite Nat.sub_diag.
Qed.


Lemma dict_loop_S fuel pcur new_key new_value out :
  dict_loop IFACE_SERVICE RISCV_get_service (S fuel) pcur new_key new_value
    out
  = (c <- peek pcur ;;
     if bool_decide (c = "}") || bool_decide (c = NUL) then ret (pcur, out)
     else
       '(pcur, new_key) <- s2a fuel pcur new_key ;;
       pcur <- skip_special_symbols pcur ;;
       c <- peek pcur ;;
       let pcur := if decide (c = ":") then next pcur else pcur in
       pcur <- skip_special_symbols pcur ;;
       '(pcur, new_value) <- s2a fuel pcur new_value ;;
       key <- to_string new_key ;;
       '(out, r) <- op_index_key key out ;;
       out <- assign out r new_value ;;
       pcur <- skip_separator pcur ;;
       dict_loop IFACE_SERVICE RISCV_get_service fuel pcur new_key new_value
         out).
Proof. reflexivity. Qed.




End Decoder.




(** ** The round trip *)




(** ** The recursion budget of sort

    [partition] returns an index of the range it was given, so both
    recursive calls of [quicksort] work on shorter ranges and the budget
    [sort] passes is never used up. *)

Lemma partition_loop_bounds n :
  forall A pivot lst_idx i j r log,
    partition_loop n A pivot lst_idx i j = Ok r log ->
    match r with
    | inl (_, i') => i <= i' <= i + Z.of_nat n
    | inr (_, p) => i + 1 <= p <= i + Z.of_nat n
    end.
Proof.
  induction n as [|n IH]; intros A pivot lst_idx i j r log.
  - intros [= <- _]. lia.
  - cbn [partition_loop].
    intros (sw & l1 & l2 & Hsw & Hrest & _)%bind_inv.
    destruct sw as [[|]|].
    + apply bind_inv in Hrest as (A' & l3 & l4 & _ & Hloop & _).
      apply IH in Hloop. destruct r as [[? ?]|[? ?]]; lia.
    + apply IH in Hrest. destruct r as [[? ?]|[? ?]]; lia.
    + injection Hrest as <- _. lia.
Qed.

Lemma partition_bounds A lo hi lst_idx A' p log :
  lo < hi ->
  partition A lo hi lst_idx = Ok (A', p) log -> lo <= p <= hi.
Proof.
  intros Hlt. unfold partition.
  intros (pivot & l1 & l2 & _ & Hrest & _)%bind_inv.
  apply bind_inv in Hrest as (r & l3 & l4 & Hloop & Hfin & _).
  apply partition_loop_bounds in Hloop.
  destruct r as [[A1 i]|[A1 q]].
  - apply bind_inv in Hfin as (A2 & l5 & l6 & _ & [= _ <-] & _). lia.
  - injection Hfin as _ <-. lia.
Qed.

Lemma bind_budget {A B} (m : result A) (f : A -> result B) :
  m <> OutOfFuel -> (forall a, f a <> OutOfFuel) -> bind m f <> OutOfFuel.
Proof.
  intros Hm Hf. unfold bind. destruct m as [a l| | |]; try done.
  specialize (Hf a). by destruct (f a).
Qed.

Ltac budget :=
  repeat match goal with
  | |- bind _ _ <> OutOfFuel => apply bind_budget; [|intros ?]
  | |- ret _ <> OutOfFuel => discriminate
  | |- Ok _ _ <> OutOfFuel => discriminate
  | |- Undefined <> OutOfFuel => discriminate
  | |- RISCV_printf _ <> OutOfFuel => discriminate
  | |- (if ?b then _ else _) <> OutOfFuel => destruct b
  | |- (match ?x with _ => _ end) <> OutOfFuel => destruct x
  end.

Lemma swap_list_item_budget n m A : swap_list_item n m A <> OutOfFuel.
Proof. unfold swap_list_item. budget. Qed.

Lemma op_index_budget A idx : op_index A idx <> OutOfFuel.
Proof. unfold op_index. budget. Qed.

Lemma load_budget A p : load A p <> OutOfFuel.
Proof. unfold load. budget. Qed.

Lemma to_string_budget A : to_string A <> OutOfFuel.
Proof. unfold to_string. budget. Qed.

Lemma to_int64_budget A : to_int64 A <> OutOfFuel.
Proof. unfold to_int64. budget. Qed.

Lemma to_uint64_budget A : to_uint64 A <> OutOfFuel.
Proof. unfold to_uint64. budget. Qed.

Lemma do_swap_budget A pivot lst_idx j :
  do_swap A pivot lst_idx j <> OutOfFuel.
Proof.
  unfold do_swap.
  repeat match goal with
  | |- bind (op_index _ _) _ <> _ =>
      apply bind_budget; [apply op_index_budget|intros ?]
  | |- bind (load _ _) _ <> _ =>
      apply bind_budget; [apply load_budget|intros ?]
  | |- bind (to_string _) _ <> _ =>
      apply bind_budget; [apply to_string_budget|intros ?]
  | |- bind (to_int64 _) _ <> _ =>
      apply bind_budget; [apply to_int64_budget|intros ?]
  | |- bind (to_uint64 _) _ <> _ =>
      apply bind_budget; [apply to_uint64_budget|intros ?]
  | |- bind (RISCV_printf _) _ <> _ =>
      apply bind_budget; [discriminate|intros ?]
  | |- ret _ <> OutOfFuel => discriminate
  | |- (if ?b then _ else _) <> OutOfFuel => destruct b
  end.
Qed.

Lemma partition_loop_budget n :
  forall A pivot lst_idx i j,
    partition_loop n A pivot lst_idx i j <> OutOfFuel.
Proof.
  induction n as [|n IH]; intros A pivot lst_idx i j; [done|].
  cbn [partition_loop].
  apply bind_budget; [apply do_swap_budget|]. intros [[|]|].
  - apply bind_budget; [apply swap_list_item_budget|]. intros A'. apply IH.
  - apply IH.
  - discriminate.
Qed.

Lemma partition_budget A lo hi lst_idx :
  partition A lo hi lst_idx <> OutOfFuel.
Proof.
  unfold partition.
  apply bind_budget; [apply op_index_budget|]. intros pivot.
  apply bind_budget; [apply partition_loop_budget|].
  intros [[A1 i]|[A1 q]]; [|discriminate].
  apply bind_budget; [apply swap_list_item_budget|]. discriminate.
Qed.

Lemma quicksort_fuel_adequate lst_idx fuel :
  forall A lo hi,
    hi - lo <= Z.of_nat fuel ->
    quicksort fuel A lo hi lst_idx <> OutOfFuel.
Proof.
  induction fuel as [|fuel IH]; intros A lo hi Hfuel;
    rewrite quicksort_unfold; destruct (Z.geb_spec lo hi) as [Hge|Hlt];
    try done; [lia|].
  pose proof (partition_budget A lo hi lst_idx) as Hpb.
  destruct (partition A lo hi lst_idx) as [[A1 p] l1| | |] eqn:Hpart;
    try done.
  pose proof (partition_bounds _ _ _ _ _ _ _ Hlt Hpart) as Hp.
  unfold bind at 1. unfold bind.
  pose proof (IH A1 lo (p - 1)) as H1.
  destruct (quicksort fuel A1 lo (p - 1) lst_idx) as [A2 l2| | |];
    try done; [|apply H1; lia].
  pose proof (IH A2 (p + 1) hi) as H2.
  destruct (quicksort fuel A2 (p + 1) hi lst_idx); try done.
  apply H2. lia.
Qed.

Lemma wrap32s_le_nat (n : nat) : wrap32s (Z.of_nat n) <= Z.of_nat n.
Proof.
  unfold wrap32s.
  destruct (Z.lt_ge_cases (Z.of_nat n) (2 ^ 31)) as [Hsmall|Hbig].
  - rewrite Z.mod_small by lia. lia.
  - pose proof (Z.mod_pos_bound (Z.of_nat n + 2 ^ 31) (2 ^ 32)). lia.
Qed.

Lemma sort_fuel_adequate idx A : sort idx A <> OutOfFuel.
Proof.
  unfold sort.
  assert (Hq : quicksort (size A) A 0 (wrap32s (Z.of_nat (size A)) - 1) idx
               <> OutOfFuel).
  { apply quicksort_fuel_adequate. pose proof (wrap32s_le_nat (size A)). lia. }
  destruct (is_list A); unfold RISCV_printf, ret, bind;
    by destruct (quicksort _ _ _ _ _).
Qed.

(** On a kind that is neither a list nor a dictionary every [partition]
    gives up at its first element, and [sort] returns the value as it
    was, after the diagnostics. *)
Lemma partition_non_indexed A lo hi lst_idx :
  is_list A = false -> is_dict A = false -> lo < hi ->
  exists log, partition A lo hi lst_idx = Ok (A, lo) log.
Proof.
  intros Hl Hd Hlt. unfold partition, op_index. rewrite Hl, Hd.
  destruct (Z.to_nat (hi - lo)) as [|n] eqn:Hn; [lia|].
  cbn [partition_loop]. unfold do_swap, op_index. rewrite Hl, Hd.
  eexists. unfold RISCV_printf, ret, bind. simpl.
  do 2 f_equal. lia.
Qed.

Lemma quicksort_non_indexed lst_idx fuel :
  forall A lo hi,
    is_list A = false -> is_dict A = false ->
    hi - lo <= Z.of_nat fuel ->
    exists log, quicksort fuel A lo hi lst_idx = Ok A log.
Proof.
  induction fuel as [|fuel IH]; intros A lo hi Hl Hd Hfuel;
    rewrite quicksort_unfold; destruct (Z.geb_spec lo hi) as [Hge|Hlt];
    try (by eexists); [lia|].
  destruct (partition_non_indexed A lo hi lst_idx Hl Hd Hlt) as [l1 ->].
  destruct (IH A lo (lo - 1) Hl Hd) as [l2 H2]; [lia|].
  destruct (IH A (lo + 1) hi Hl Hd) as [l3 H3]; [lia|].
  unfold bind. rewrite H2, H3. by eexists.
Qed.

Lemma sort_non_indexed idx A :
  is_list A = false -> is_dict A = false ->
  exists log,
    sort idx A
    = Ok A ("Sort algorithm can applied only to list attribute"%string :: log).
Proof.
  intros Hl Hd. unfold sort. rewrite Hl.
  destruct (quicksort_non_indexed idx (size A) A 0
              (wrap32s (Z.of_nat (size A)) - 1) Hl Hd) as [log Hq].
  { pose proof (wrap32s_le_nat (size A)). lia. }
  exists log. unfold RISCV_printf, bind. by rewrite Hq.
Qed.

(** ** Scenarios *)

Example encode_list_scenario :
  to_config sample_IFACE_SERVICE sample_sprintf_4f
    (Attr_List [Attr_Integer 10; Attr_String (txt "ab"); Attr_Boolean true])
  = Ok (txt "[10,'ab',true]") [].
Proof. reflexivity. Qed.

Example decode_list_scenario :
  from_config sample_IFACE_SERVICE sample_get_service 16
    (txt "[10,'ab',true]") default_attribute
  = Ok (Attr_List [Attr_Integer 10; Attr_String (txt "ab");
                   Attr_Boolean true]) [].
Proof. reflexivity. Qed.

Example decode_service_scenario :
  from_config sample_IFACE_SERVICE sample_get_service 16
    (txt "{'Type':'IService','ModuleName':'core0'}") default_attribute
  = Ok (Attr_Interface (sample_get_service (txt "core0"))) [].
Proof. reflexivity. Qed.

Example encode_data_scenario :
  let a := Attr_Data [Byte.x01; Byte.xab; Byte.xff] in
  to_config sample_IFACE_SERVICE sample_sprintf_4f a = Ok (txt "(01,AB,FF)") []
  /\ (p <- op_call a 1 ;; load_byte a p) = Ok Byte.xab [].
Proof. split; reflexivity. Qed.

(** The string branch copies from [cfg + 1], not from the opening quote
    the skipped position points to. *)
Example decode_leading_space_scenario :
  from_config sample_IFACE_SERVICE sample_get_service 16 (txt " 'ab'")
    default_attribute
  = Ok (Attr_String (txt "'a")) [].
Proof. reflexivity. Qed.

(** No branch consumes the character [z]: the loop of the list token
    decodes an integer without digits again and again. *)
Example decode_unfinished_list_scenario :
  from_config sample_IFACE_SERVICE sample_get_service 64 (txt "[z")
    default_attribute
  = OutOfFuel.
Proof. reflexivity. Qed.

(** ** Further properties of the attribute operations *)

(** ** Deep copy *)

(** X1. [clone] of a constructible value is that value, and reports nothing:
    strings, data, list elements and dictionary pairs are copied in
    full. *)
Theorem clone_is_deep_copy (v : AttributeType)
    (Hv : constructible v = true) :
  clone v = Ok v []
  /\ (c <- clone v ;; clone c) = Ok v [].
Proof.
  split; [by apply clone_Ok|].
  rewrite (bind_Ok_nil _ _ v) by (by apply clone_Ok). by apply clone_Ok.
Qed.

Lemma clone_is_deep_copy_witness :
  let v := Attr_Dict [(Attr_String (txt "k"),
                       Attr_List [Attr_Integer 3; Attr_Data [Byte.x0a]])] in
  clone v = Ok v [] /\ (c <- clone v ;; clone c) = Ok v [].
Proof.
  apply (clone_is_deep_copy
           (Attr_Dict [(Attr_String (txt "k"),
                        Attr_List [Attr_Integer 3; Attr_Data [Byte.x0a]])])).
  reflexivity.
Defined.

(** ** Comparison with a C string *)

(** X2. [is_equal(v)] holds exactly of the string attribute whose text is
    [v]; on every other kind it is false and reads no payload. *)
Theorem is_equal_iff_same_string (a : AttributeType) (v : text) :
  exists b, is_equal v a = Ok b [] /\ (b = true <-> a = Attr_String v).
Proof.
  destruct a; try (exists false; split; [reflexivity|]; split; congruence).
  unfold is_equal. simpl. mstep.
  eexists; split; [reflexivity|].
  rewrite bool_decide_eq_true, strcmp_eq. split; congruence.
Qed.

(** ** Insertion into a list *)

Lemma insert_to_list_in_range (l : list AttributeType) idx item :
  (idx <= length l)%nat -> constructible item = true ->
  Z.of_nat (length l) + 1 < 2 ^ 32 ->
  insert_to_list idx item (Attr_List l)
  = Ok (Attr_List (take idx l ++ item :: drop idx l)) [].
Proof.
  intros Hidx Hitem Hfit. unfold insert_to_list. simpl size.
  rewrite decide_False by lia. rewrite (bind_Ok_nil _ _ item)
    by (by apply clone_Ok).
  rewrite wrap32u_small by lia.
  rewrite firstn_all2; [done|].
  rewrite length_app, length_take. simpl. rewrite length_drop. lia.
Qed.

(** X3. [insert_to_list(idx, item)] with [idx <= size] puts a copy of [item]
    at [idx], keeps the elements before it and moves the elements from
    [idx] on up by one; with [idx > size] it reports and changes
    nothing. *)
Theorem insert_to_list_shifts_tail (l : list AttributeType) (idx : nat)
    (item : AttributeType)
    (Hitem : constructible item = true)
    (Hfit : Z.of_nat (length l) + 1 < 2 ^ 32) :
  ((idx <= length l)%nat ->
   exists l',
     insert_to_list idx item (Attr_List l) = Ok (Attr_List l') []
     /\ size (Attr_List l') = S (size (Attr_List l))
     /\ l' !! idx = Some item
     /\ (forall j, (j < idx)%nat -> l' !! j = l !! j)
     /\ (forall j, (idx <= j)%nat -> l' !! S j = l !! j))
  /\ ((length l < idx)%nat ->
      insert_to_list idx item (Attr_List l)
      = Ok (Attr_List l) ["Insert index out of bound"%string]).
Proof.
  split.
  - intros Hidx. exists (take idx l ++ item :: drop idx l).
    split; [by apply insert_to_list_in_range|].
    assert (Hlen : length (take idx l) = idx) by (rewrite length_take; lia).
    repeat split.
    + simpl. rewrite length_app, Hlen. simpl. rewrite length_drop. lia.
    + rewrite lookup_app_r by lia. by rewrite Hlen, Nat.sub_diag.
    + intros j Hj. rewrite lookup_app_l by lia. by apply lookup_take_lt.
    + intros j Hj. rewrite lookup_app_r by lia. rewrite Hlen.
      replace (S j - idx)%nat with (S (j - idx)) by lia. simpl.
      rewrite lookup_drop. f_equal. lia.
  - intros Hidx. unfold insert_to_list. simpl size.
    by rewrite decide_True by lia.
Qed.

Lemma insert_to_list_shifts_tail_witness :
  insert_to_list 1 (Attr_String (txt "b"))
    (Attr_List [Attr_Integer 1; Attr_Integer 2])
  = Ok (Attr_List [Attr_Integer 1; Attr_String (txt "b"); Attr_Integer 2]) []
  /\ insert_to_list 3 (Attr_String (txt "b"))
       (Attr_List [Attr_Integer 1; Attr_Integer 2])
     = Ok (Attr_List [Attr_Integer 1; Attr_Integer 2])
          ["Insert index out of bound"%string].
Proof.
  destruct (insert_to_list_shifts_tail
              [Attr_Integer 1; Attr_Integer 2] 1 (Attr_String (txt "b"))) 
    as [Hin _]; [reflexivity | simpl; lia |].
  destruct (insert_to_list_shifts_tail
              [Attr_Integer 1; Attr_Integer 2] 3 (Attr_String (txt "b"))) 
    as [_ Hout]; [reflexivity | simpl; lia |].
  split; [reflexivity | apply Hout; simpl; lia].
Defined.

(** X4. An element inserted at the end is the one [remove_from_list] takes
    away there: the list is as it was. *)
Theorem insert_at_end_then_remove (l : list AttributeType)
    (item : AttributeType)
    (Hitem : constructible item = true)
    (Hfit : Z.of_nat (length l) + 1 < 2 ^ 32) :
  (a <- insert_to_list (length l) item (Attr_List l) ;;
   remove_from_list (length l) a)
  = Ok (Attr_List l) [].
Proof.
  rewrite insert_to_list_in_range by first [done | lia].
  mstep. rewrite firstn_all, drop_all.
  unfold remove_from_list. simpl size.
  rewrite length_app. simpl length.
  rewrite decide_False by lia. unfold op_index. cbn [is_list]. mstep.
  cbn [load]. rewrite lookup_app_r by lia. rewrite Nat.sub_diag. simpl. mstep.
  rewrite decide_True by (rewrite length_app; simpl; lia). mstep.
  rewrite decide_True by lia.
  unfold shrink. rewrite length_insert, length_app. simpl length.
  rewrite wrap32u_small by lia.
  replace (Z.to_nat (Z.of_nat (length l + 1) - 1)) with (length l) by lia.
  rewrite insert_app_r_alt by lia. by rewrite take_app_length.
Qed.

Lemma insert_at_end_then_remove_witness :
  (a <- insert_to_list 2 (Attr_Boolean true)
          (Attr_List [Attr_Integer 1; Attr_Integer 2]) ;;
   remove_from_list 2 a)
  = Ok (Attr_List [Attr_Integer 1; Attr_Integer 2]) [].
Proof.
  apply (insert_at_end_then_remove [Attr_Integer 1; Attr_Integer 2]
           (Attr_Boolean true)); [reflexivity | simpl; lia].
Defined.

(** ** Exchange of two elements *)

(** X5. [swap_list_item(n, m)] is its own inverse and does not depend on the
    order of its two indices. *)
Theorem swap_list_item_involutive (a a' : AttributeType) (n m : nat)
    (log : list string)
    (Hswap : swap_list_item n m a = Ok a' log) :
  log = []
  /\ swap_list_item m n a = Ok a' []
  /\ swap_list_item n m a' = Ok a []
  /\ size a' = size a.
Proof.
  unfold swap_list_item in *.
  destruct (decide (n = m)) as [->|Hnm].
  - rewrite decide_True by done. unfold ret in Hswap.
    by injection Hswap as <- <-.
  - rewrite (decide_False (P := m = n)) by congruence.
    destruct a as [| | | | | | | |l| |]; try discriminate.
    destruct (l !! n) as [x|] eqn:Hn; [|discriminate].
    destruct (l !! m) as [y|] eqn:Hm; [|discriminate].
    unfold ret in Hswap. injection Hswap as <- <-.
    assert (Hln : (n < length l)%nat) by (by eapply lookup_lt_Some).
    assert (Hlm : (m < length l)%nat) by (by eapply lookup_lt_Some).
    split; [done|]. split; [|split].
    + by rewrite list_insert_insert_ne by done.
    + rewrite list_lookup_insert_ne by congruence.
      rewrite list_lookup_insert_eq by done.
      rewrite list_lookup_insert_eq by (by rewrite length_insert).
      unfold ret. do 2 f_equal.
      rewrite (list_insert_insert_ne _ n m) by done.
      rewrite !list_insert_insert_eq.
      rewrite (list_insert_id _ _ _ Hn).
      by rewrite (list_insert_id _ _ _ Hm).
    + simpl. by rewrite !length_insert.
Qed.

Lemma swap_list_item_involutive_witness :
  swap_list_item 2 0
    (Attr_List [Attr_Integer 1; Attr_Integer 2; Attr_Integer 3])
  = Ok (Attr_List [Attr_Integer 3; Attr_Integer 2; Attr_Integer 1]) [].
Proof.
  apply (swap_list_item_involutive
           (Attr_List [Attr_Integer 1; Attr_Integer 2; Attr_Integer 3])
           (Attr_List [Attr_Integer 3; Attr_Integer 2; Attr_Integer 1])
           0 2 []).
  reflexivity.
Defined.

(** ** Dictionaries *)

(** The scan of [operator[](const char *key)] stops at the first pair with
    the key, or finds none. *)
Lemma find_key_cases k d :
  string_keyed d = true ->
  forall n,
    (exists i v,
        find_key k d n = Ok (Some (n + i)%nat) []
        /\ d !! i = Some (Attr_String k, v)
        /\ key_absent k (take i d) = true)
    \/ (find_key k d n = Ok None [] /\ key_absent k d = true).
Proof.
  induction d as [|[kk v] d IH]; intros Hkeys n; [by right|].
  simpl in Hkeys. apply andb_prop in Hkeys as [Hk Hkeys].
  destruct kk as [| | | | | |s| | | |]; try discriminate.
  cbn [find_key]. change (key_ (Attr_String s, v)) with (Attr_String s).
  cbn [to_string]. mstep.
  destruct (decide (strcmp k s = 0)) as [E|E].
  - apply strcmp_eq in E as <-. left. exists 0%nat, v.
    by rewrite Nat.add_0_r.
  - assert (Hne : s <> k) by (intros ->; by rewrite strcmp_refl in E).
    destruct (IH Hkeys (S n)) as [(i & w & Hf & Hi & Habs)|[Hf Habs]].
    + left. exists (S i), w. split; [|split; [done|]].
      * by replace (n + S i)%nat with (S n + i)%nat by lia.
      * cbn [take key_absent forallb]. fold (key_absent k (take i d)).
        rewrite Habs. change (key_ (Attr_String s, v)) with (Attr_String s).
        cbv iota. by rewrite bool_decide_eq_false_2.
    + right. split; [done|].
      cbn [key_absent forallb]. fold (key_absent k d). rewrite Habs.
      change (key_ (Attr_String s, v)) with (Attr_String s).
      cbv iota. by rewrite bool_decide_eq_false_2.
Qed.

Lemma find_key_first k d i v :
  string_keyed d = true -> d !! i = Some (Attr_String k, v) ->
  key_absent k (take i d) = true ->
  forall n, find_key k d n = Ok (Some (n + i)%nat) [].
Proof.
  revert i. induction d as [|[kk w] d IH]; intros i Hkeys Hi Habs n;
    [done|].
  simpl in Hkeys. apply andb_prop in Hkeys as [Hk Hkeys].
  destruct kk as [| | | | | |s| | | |]; try discriminate.
  cbn [find_key]. change (key_ (Attr_String s, w)) with (Attr_String s).
  cbn [to_string]. mstep.
  destruct i as [|i].
  - simpl in Hi. injection Hi as -> ->.
    rewrite decide_True by apply strcmp_refl. by rewrite Nat.add_0_r.
  - simpl in Hi. cbn [take key_absent forallb] in Habs.
    fold (key_absent k (take i d)) in Habs.
    change (key_ (Attr_String s, w)) with (Attr_String s) in Habs.
    cbv iota in Habs. apply andb_prop in Habs as [Hs Habs].
    apply negb_true_iff, bool_decide_eq_false in Hs.
    rewrite decide_False by (intros E; apply strcmp_eq in E; congruence).
    rewrite (IH i Hkeys Hi Habs (S n)).
    by replace (n + S i)%nat with (S n + i)%nat by lia.
Qed.

Lemma op_index_key_present (d : list AttributePairType) k i v :
  string_keyed d = true -> d !! i = Some (Attr_String k, v) ->
  key_absent k (take i d) = true ->
  op_index_key k (Attr_Dict d) = Ok (Attr_Dict d, DictValue i) [].
Proof.
  intros Hkeys Hi Hfirst. unfold op_index_key.
  rewrite (bind_Ok_nil _ _ (Some i))
    by (by rewrite (find_key_first k d i v)).
  done.
Qed.

(** X6. Looking up a key the dictionary holds changes nothing: the reference
    is to the value of the first pair with that key. *)
Theorem lookup_present_key (d : list AttributePairType) (k : text)
    (i : nat) (v : AttributeType)
    (Hkeys : string_keyed d = true)
    (Hi : d !! i = Some (Attr_String k, v))
    (Hfirst : key_absent k (take i d) = true) :
  op_index_key k (Attr_Dict d) = Ok (Attr_Dict d, DictValue i) []
  /\ load (Attr_Dict d) (DictValue i) = Ok v [].
Proof.
  split; [by apply (op_index_key_present d k i v)|].
  unfold load, AttributePairType in *. by rewrite Hi.
Qed.

Lemma lookup_present_key_witness :
  op_index_key (txt "b")
    (Attr_Dict [(Attr_String (txt "a"), Attr_Integer 1);
                (Attr_String (txt "b"), Attr_Integer 2);
                (Attr_String (txt "b"), Attr_Integer 3)])
  = Ok (Attr_Dict [(Attr_String (txt "a"), Attr_Integer 1);
                   (Attr_String (txt "b"), Attr_Integer 2);
                   (Attr_String (txt "b"), Attr_Integer 3)], DictValue 1) [].
Proof.
  apply (lookup_present_key
           [(Attr_String (txt "a"), Attr_Integer 1);
            (Attr_String (txt "b"), Attr_Integer 2);
            (Attr_String (txt "b"), Attr_Integer 3)]
           (txt "b") 1 (Attr_Integer 2)); reflexivity.
Defined.

Lemma key_absent_insert_value k d i kv x :
  d !! i = Some kv ->
  key_absent k (<[i := (key_ kv, x)]> d) = key_absent k d.
Proof.
  revert i. induction d as [|p d IH]; intros [|i] Hi; try done.
  - simpl in Hi. injection Hi as ->. by destruct kv.
  - simpl in Hi. unfold key_absent in *.
    change (<[S i := (key_ kv, x)]> (p :: d))
      with (p :: <[i := (key_ kv, x)]> d).
    cbn [forallb]. by rewrite IH.
Qed.

Lemma distinct_keys_insert_value d i kv x :
  d !! i = Some kv ->
  distinct_keys (<[i := (key_ kv, x)]> d) = distinct_keys d.
Proof.
  revert i. induction d as [|p d IH]; intros [|i] Hi; try done.
  - simpl in Hi. injection Hi as ->. by destruct kv.
  - simpl in Hi.
    change (<[S i := (key_ kv, x)]> (p :: d))
      with (p :: <[i := (key_ kv, x)]> d).
    cbn [distinct_keys]. rewrite (IH i Hi).
    destruct (key_ p); try done.
    by rewrite key_absent_insert_value.
Qed.

Lemma distinct_keys_snoc d k v :
  distinct_keys d = true -> key_absent k d = true ->
  distinct_keys (d ++ [(Attr_String k, v)]) = true.
Proof.
  induction d as [|[kk w] d IH]; intros Hd Habs; [done|].
  cbn [distinct_keys app] in *.
  change (key_ (kk, w)) with kk in *.
  cbn [key_absent forallb] in Habs. fold (key_absent k d) in Habs.
  change (key_ (kk, w)) with kk in Habs.
  destruct kk as [| | | | | |s| | | |]; try discriminate.
  apply andb_prop in Hd as [Hs Hd]. apply andb_prop in Habs as [Hsk Habs].
  rewrite key_absent_app, Hs, IH by done.
  cbn [key_absent forallb].
  change (key_ (Attr_String k, v)) with (Attr_String k).
  cbv iota. apply negb_true_iff, bool_decide_eq_false in Hsk.
  by rewrite bool_decide_eq_false_2 by congruence.
Qed.

(** X7. [d[k] = v] on a dictionary with distinct string keys that has
    room for one more pair in its [unsigned] size: the value is stored
    under [k], a later lookup of [k] finds it without changing the
    dictionary, [has_key] reports it unless it is [Nil], every other entry
    is as it was, the size still fits and the keys stay distinct. *)
Theorem assign_by_key_then_lookup (d : list AttributePairType) (k : text)
    (v : AttributeType)
    (Hd : distinct_keys d = true)
    (Hk : c_string k = true)
    (Hv : constructible v = true)
    (Hfit : Z.of_nat (length d) + 1 < 2 ^ 32) :
  exists d' i,
    ('(out, r) <- op_index_key k (Attr_Dict d) ;; assign out r v)
    = Ok (Attr_Dict d') []
    /\ op_index_key k (Attr_Dict d') = Ok (Attr_Dict d', DictValue i) []
    /\ load (Attr_Dict d') (DictValue i) = Ok v []
    /\ (v <> Attr_Nil -> has_key k (Attr_Dict d') = Ok true [])
    /\ (forall j, j <> i -> (j < length d)%nat -> d' !! j = d !! j)
    /\ (length d <= length d' <= S (length d))%nat
    /\ Z.of_nat (length d') < 2 ^ 32
    /\ distinct_keys d' = true.
Proof.
  pose proof (distinct_keys_string_keyed d Hd) as Hkeys.
  destruct (find_key_cases k d Hkeys 0) as [(i & w & Hf & Hi & Habs)|[Hf Habs]].
  - exists (<[i := (Attr_String k, v)]> d), i.
    assert (Hlt : (i < length d)%nat) by (by eapply lookup_lt_Some).
    assert (Hd' : distinct_keys (<[i := (Attr_String k, v)]> d) = true).
    { change (Attr_String k) with (key_ (Attr_String k, w)).
      by rewrite distinct_keys_insert_value. }
    assert (Hi' : <[i := (Attr_String k, v)]> d !! i
                  = Some (Attr_String k, v))
      by (by apply list_lookup_insert_eq).
    split; [|split; [|split; [|split; [|split; [|split; [|split]]]]]].
    + unfold op_index_key. rewrite (bind_Ok_nil _ _ (Some i)) by done.
      mstep. unfold assign. rewrite (bind_Ok_nil _ _ v) by (by apply clone_Ok).
      unfold store, AttributePairType in *. by rewrite Hi.
    + apply (op_index_key_present _ k i v);
        [by apply distinct_keys_string_keyed | done |].
      by rewrite take_insert_ge by lia.
    + unfold load, AttributePairType in *. by rewrite Hi'.
    + intros Hnil. simpl.
      apply (has_key_scan_found k _ v);
        [by apply distinct_keys_string_keyed | | done].
      by eapply list_elem_of_lookup_2.
    + intros j Hj _. by rewrite list_lookup_insert_ne by done.
    + rewrite length_insert. unfold AttributePairType. lia.
    + rewrite length_insert. unfold AttributePairType in *. lia.
    + done.
  - exists (d ++ [(Attr_String k, v)]), (length d).
    assert (Hd' : distinct_keys (d ++ [(Attr_String k, v)]) = true)
      by (by apply distinct_keys_snoc).
    assert (Hi' : (d ++ [(Attr_String k, v)]) !! length d
                  = Some (Attr_String k, v))
      by (rewrite lookup_app_r by (unfold AttributePairType; lia);
          by rewrite Nat.sub_diag).
    split; [|split; [|split; [|split; [|split; [|split; [|split]]]]]].
    + rewrite op_index_key_absent by done. mstep.
      by apply assign_last_value.
    + apply (op_index_key_present _ k (length d) v);
        [by apply distinct_keys_string_keyed | done |].
      by rewrite take_app_length.
    + unfold load, AttributePairType in *. by rewrite Hi'.
    + intros Hnil. simpl.
      apply (has_key_scan_found k _ v);
        [by apply distinct_keys_string_keyed | | done].
      by eapply list_elem_of_lookup_2.
    + intros j _ Hj. by rewrite lookup_app_l by done.
    + rewrite length_app. unfold AttributePairType. simpl. lia.
    + rewrite length_app. unfold AttributePairType in *. simpl. lia.
    + done.
Qed.

Lemma assign_by_key_then_lookup_witness :
  exists d' i,
    ('(out, r) <- op_index_key (txt "b")
                    (Attr_Dict [(Attr_String (txt "a"), Attr_Integer 1);
                                (Attr_String (txt "b"), Attr_Integer 2)]) ;;
     assign out r (Attr_Boolean true))
    = Ok (Attr_Dict d') []
    /\ load (Attr_Dict d') (DictValue i) = Ok (Attr_Boolean true) [].
Proof.
  destruct (assign_by_key_then_lookup
              [(Attr_String (txt "a"), Attr_Integer 1);
               (Attr_String (txt "b"), Attr_Integer 2)]
              (txt "b") (Attr_Boolean true))
    as (d' & i & H1 & _ & H2 & _);
    [reflexivity | reflexivity | reflexivity | simpl; lia |].
  by exists d', i.
Defined.

(** ** Ordering by any comparison partition makes

    The loop of [partition] and the recursion of [quicksort] for any kind
    of element [K] on which [do_swap] computes a total and transitive
    test [le]. *)

Section Ordering.
Variable lst_idx : Z.
Variable K : AttributeType -> bool.
Variable le : AttributeType -> AttributeType -> bool.
Hypothesis le_total :
  forall x y, K x = true -> K y = true -> le x y = false -> le y x = true.
Hypothesis le_trans :
  forall x y z, le x y = true -> le y z = true -> le x z = true.
Hypothesis do_swap_le :
  forall (l : list AttributeType) (j hi : nat) x pv,
    K x = true -> K pv = true ->
    l !! j = Some x -> l !! hi = Some pv ->
    Z.of_nat j < 2 ^ 32 ->
    do_swap (Attr_List l) (ListItem hi) lst_idx (Z.of_nat j)
    = Ok (Some (le x pv)) [].

Lemma partition_loop_ordered pv (pre post : list AttributeType) :
  K pv = true ->
  forall rest smalls larges (hi : nat) (i j : Z),
    Forall (fun x => K x = true) rest ->
    Forall (fun x => le x pv = true) smalls ->
    Forall (fun x => le x pv = false) larges ->
    hi = (length pre + length smalls + length larges + length rest)%nat ->
    Z.of_nat hi < 2 ^ 32 ->
    i = Z.of_nat (length pre + length smalls) - 1 ->
    j = Z.of_nat (length pre + length smalls + length larges) ->
    exists smalls' larges',
      partition_loop (length rest)
        (Attr_List (pre ++ smalls ++ larges ++ rest ++ pv :: post))
        (ListItem hi) lst_idx i j
      = Ok (inl (Attr_List (pre ++ smalls' ++ larges' ++ pv :: post),
                 Z.of_nat (length pre + length smalls') - 1)) []
      /\ smalls ++ larges ++ rest ≡ₚ smalls' ++ larges'
      /\ Forall (fun x => le x pv = true) smalls'
      /\ Forall (fun x => le x pv = false) larges'.
Proof.
  intros Hpv rest.
  induction rest as [|x rest IH];
    intros smalls larges hi i j HKr Hs Hl Hhi Hfit Hi Hj.
  - exists smalls, larges. simpl. rewrite app_nil_r. subst i. done.
  - apply Forall_cons in HKr as [HKx HKr]. simpl in Hhi.
    set (l := pre ++ smalls ++ larges ++ (x :: rest) ++ pv :: post).
    assert (Hpiv : l !! hi = Some pv).
    { subst l.
      replace (pre ++ smalls ++ larges ++ (x :: rest) ++ pv :: post)
        with ((pre ++ smalls ++ larges ++ x :: rest) ++ pv :: post)
        by (by rewrite <- !app_assoc).
      apply list_lookup_middle. rewrite !length_app. simpl. lia. }
    assert (Hx : l !! (length pre + length smalls + length larges)%nat
                 = Some x).
    { subst l.
      replace (pre ++ smalls ++ larges ++ (x :: rest) ++ pv :: post)
        with ((pre ++ smalls ++ larges) ++ x :: rest ++ pv :: post)
        by (by rewrite <- !app_assoc).
      apply list_lookup_middle. rewrite !length_app. lia. }
    change (length (x :: rest)) with (S (length rest)).
    cbn [partition_loop]. subst j.
    rewrite (do_swap_le l _ hi x pv) by (done || lia).
    mstep. destruct (le x pv) eqn:Hle.
    + assert (Hi1 : to_unsigned (i + 1) = (length pre + length smalls)%nat).
      { subst i. rewrite <- to_unsigned_nat by lia. f_equal. lia. }
      rewrite Hi1, to_unsigned_nat by lia.
      destruct larges as [|y ls].
      * unfold swap_list_item. rewrite decide_True by (simpl; lia). mstep.
        destruct (IH (smalls ++ [x]) [] hi (i + 1)
                    (Z.of_nat (length pre + length smalls
                              + length (@nil AttributeType)) + 1))
          as (s' & g' & Hrun & Hperm & Hs' & Hg');
          [ done | by apply Forall_app_2; [|apply Forall_singleton] | done
          | solve_length | done
          | solve_length
          | solve_length |].
        exists s', g'. split; [|split; [|done]].
        -- rewrite <- Hrun. subst l. simpl. by rewrite <- !app_assoc.
        -- rewrite <- Hperm. simpl. by rewrite <- !app_assoc.
      * subst l.
        replace (pre ++ smalls ++ (y :: ls) ++ (x :: rest) ++ pv :: post)
          with ((pre ++ smalls) ++ y :: ls ++ x :: rest ++ pv :: post)
          by (by rewrite <- !app_assoc).
        rewrite (swap_list_item_segments (pre ++ smalls) ls _ y x)
          by (rewrite ?length_app; simpl; lia).
        mstep. apply Forall_cons in Hl as [Hy Hl].
        destruct (IH (smalls ++ [x]) (ls ++ [y]) hi (i + 1)
                    (Z.of_nat (length pre + length smalls + length (y :: ls))
                     + 1))
          as (s' & g' & Hrun & Hperm & Hs' & Hg');
          [ done | by apply Forall_app_2; [|apply Forall_singleton]
          | by apply Forall_app_2; [|apply Forall_singleton]
          | solve_length | done
          | solve_length
          | solve_length |].
        exists s', g'. split; [|split; [|done]].
        -- rewrite <- Hrun. simpl. by rewrite <- !app_assoc.
        -- rewrite <- Hperm. rewrite <- !app_assoc. simpl.
           apply Permutation_app_head.
           rewrite <- (Permutation_middle ls rest x).
           rewrite <- (Permutation_middle ls rest y). apply perm_swap.
    + destruct (IH smalls (larges ++ [x]) hi i
                  (Z.of_nat (length pre + length smalls + length larges) + 1))
        as (s' & g' & Hrun & Hperm & Hs' & Hg');
        [ done | done | by apply Forall_app_2; [|apply Forall_singleton]
        | solve_length | done | done
        | solve_length |].
      exists s', g'. split; [|split; [|done]].
      * rewrite <- Hrun. subst l. simpl. by rewrite <- !app_assoc.
      * rewrite <- Hperm. by rewrite <- !app_assoc.
Qed.

Lemma partition_ordered (pre mid post : list AttributeType) pv :
  Forall (fun x => K x = true) mid -> K pv = true ->
  Z.of_nat (length pre + length mid) < 2 ^ 32 ->
  exists smalls larges,
    partition (Attr_List (pre ++ mid ++ pv :: post))
      (Z.of_nat (length pre)) (Z.of_nat (length pre + length mid)) lst_idx
    = Ok (Attr_List (pre ++ smalls ++ pv :: larges ++ post),
          Z.of_nat (length pre + length smalls)) []
    /\ mid ≡ₚ smalls ++ larges
    /\ Forall (fun x => le x pv = true) smalls
    /\ Forall (fun x => le x pv = false) larges.
Proof.
  intros Hmid Hpv Hfit. unfold partition, op_index. simpl. mstep.
  rewrite to_unsigned_nat by done.
  replace (Z.to_nat (Z.of_nat (length pre + length mid)
                     - Z.of_nat (length pre)))
    with (length mid) by lia.
  destruct (partition_loop_ordered pv pre post Hpv mid [] []
              (length pre + length mid)%nat (Z.of_nat (length pre) - 1)
              (Z.of_nat (length pre)))
    as (s' & g' & Hrun & Hperm & Hs' & Hg'); try done; try solve_length.
  simpl in Hrun, Hperm. rewrite Hrun. mstep.
  assert (Hlen : length mid = (length s' + length g')%nat)
    by (by rewrite Hperm, length_app).
  replace (Z.of_nat (length pre + length s') - 1 + 1)
    with (Z.of_nat (length pre + length s')) by lia.
  rewrite to_unsigned_nat by lia.
  destruct g' as [|y ls].
  - exists s', []. unfold swap_list_item.
    rewrite decide_True by solve_length. mstep. by rewrite app_nil_r in *.
  - replace (pre ++ s' ++ (y :: ls) ++ pv :: post)
      with ((pre ++ s') ++ y :: ls ++ pv :: post)
      by (by rewrite <- !app_assoc).
    rewrite (swap_list_item_segments (pre ++ s') ls post y pv)
      by solve_length.
    mstep. exists s', (ls ++ [y]).
    apply Forall_cons in Hg' as [Hy Hg']. split; [|split; [|split]].
    + by rewrite <- !app_assoc.
    + rewrite Hperm. apply Permutation_app_head.
      by rewrite <- Permutation_cons_append.
    + done.
    + by apply Forall_app_2; [|apply Forall_singleton].
Qed.

Lemma quicksort_ordered :
  forall fuel (pre mid post : list AttributeType),
    Forall (fun x => K x = true) mid ->
    (length mid <= S fuel)%nat ->
    Z.of_nat (length pre + length mid) < 2 ^ 32 ->
    exists mid',
      quicksort fuel (Attr_List (pre ++ mid ++ post))
        (Z.of_nat (length pre)) (Z.of_nat (length pre + length mid) - 1)
        lst_idx
      = Ok (Attr_List (pre ++ mid' ++ post)) []
      /\ mid ≡ₚ mid'
      /\ StronglySorted (fun x y => le x y = true) mid'.
Proof.
  intros fuel.
  induction fuel as [|fuel IH]; intros pre mid post HKm Hfuel Hfit;
    rewrite quicksort_unfold.
  - exists mid. rewrite (proj2 (Z.geb_le _ _)) by lia.
    split; [done|]. split; [done|].
    destruct mid as [|x [|y mid]]; [constructor|by repeat constructor|].
    simpl in Hfuel. lia.
  - destruct (decide (length mid <= 1)%nat) as [Hshort|Hlong].
    { exists mid. rewrite (proj2 (Z.geb_le _ _)) by lia.
      split; [done|]. split; [done|].
      destruct mid as [|x [|y mid]]; [constructor|by repeat constructor|].
      simpl in Hshort. lia. }
    rewrite Z.geb_leb, (proj2 (Z.leb_gt _ _)) by lia.
    destruct (exists_last (l := mid)) as (mid0 & pv & ->);
      [by intros ->; simpl in Hlong; lia|].
    apply Forall_app in HKm as [HK0 [HKpv _]%Forall_cons].
    rewrite length_app in *. simpl length in *.
    destruct (partition_ordered pre mid0 post pv HK0 HKpv)
      as (smalls & larges & Hpart & Hperm & Hs & Hl); [lia|].
    replace (pre ++ (mid0 ++ [pv]) ++ post) with (pre ++ mid0 ++ pv :: post)
      by (by rewrite <- !app_assoc).
    replace (Z.of_nat (length pre + (length mid0 + 1)) - 1)
      with (Z.of_nat (length pre + length mid0)) by lia.
    rewrite Hpart. mstep.
    assert (Hlen : length mid0 = (length smalls + length larges)%nat)
      by (by rewrite Hperm, length_app).
    assert (HKs : Forall (fun x => K x = true) smalls)
      by (rewrite Hperm in HK0; by apply Forall_app in HK0 as [? ?]).
    assert (HKl : Forall (fun x => K x = true) larges)
      by (rewrite Hperm in HK0; by apply Forall_app in HK0 as [? ?]).
    destruct (IH pre smalls (pv :: larges ++ post) HKs)
      as (smalls' & Hrun1 & Hperm1 & Hsorted1); [lia|lia|].
    rewrite Hrun1. mstep.
    assert (Hlen1 : length smalls' = length smalls) by (by rewrite Hperm1).
    destruct (IH (pre ++ smalls' ++ [pv]) larges post HKl)
      as (larges' & Hrun2 & Hperm2 & Hsorted2);
      [lia|rewrite !length_app; simpl; lia|].
    replace (Z.of_nat (length (pre ++ smalls' ++ [pv])))
      with (Z.of_nat (length pre + length smalls) + 1) in Hrun2
      by (rewrite !length_app; simpl; lia).
    replace (Z.of_nat (length (pre ++ smalls' ++ [pv]) + length larges) - 1)
      with (Z.of_nat (length pre + length mid0)) in Hrun2
      by (rewrite !length_app; simpl; lia).
    replace ((pre ++ smalls' ++ [pv]) ++ larges ++ post)
      with (pre ++ smalls' ++ pv :: larges ++ post) in Hrun2
      by (by rewrite <- !app_assoc).
    rewrite Hrun2.
    exists (smalls' ++ pv :: larges'). split; [|split].
    + by rewrite <- !app_assoc.
    + rewrite Hperm, Hperm1, Hperm2. rewrite <- !app_assoc. simpl.
      apply Permutation_app_head. symmetry. apply Permutation_cons_append.
    + assert (Hs' : Forall (fun x => le x pv = true) smalls')
        by (by rewrite <- Hperm1).
      assert (Hl' : Forall (fun x => le pv x = true) larges').
      { rewrite <- Hperm2. rewrite Forall_forall in Hl, HKl.
        apply Forall_forall. intros x Hx.
        apply le_total; auto. }
      apply StronglySorted_app. split; [|split; [done|]].
      * intros x1 x2 Hx1 Hx2. rewrite Forall_forall in Hs', Hl'.
        apply elem_of_cons in Hx2 as [->|Hx2]; [by apply Hs'|].
        apply le_trans with pv; auto.
      * by apply StronglySorted_cons.
Qed.

(** A range whose elements are all at most the pivot is left as it is:
    every iteration exchanges a slot with itself. *)
Lemma partition_loop_all_small pv (pre post : list AttributeType) :
  K pv = true ->
  forall rest smalls (hi : nat) (i j : Z),
    Forall (fun x => K x = true) rest ->
    Forall (fun x => le x pv = true) rest ->
    hi = (length pre + length smalls + length rest)%nat ->
    Z.of_nat hi < 2 ^ 32 ->
    i = Z.of_nat (length pre + length smalls) - 1 ->
    j = Z.of_nat (length pre + length smalls) ->
    partition_loop (length rest)
      (Attr_List (pre ++ smalls ++ rest ++ pv :: post))
      (ListItem hi) lst_idx i j
    = Ok (inl (Attr_List (pre ++ smalls ++ rest ++ pv :: post),
               Z.of_nat hi - 1)) [].
Proof.
  intros Hpv rest.
  induction rest as [|x rest IH];
    intros smalls hi i j HKr Hle Hhi Hfit Hi Hj.
  - simpl. subst. unfold ret. do 3 f_equal. solve_length.
  - apply Forall_cons in HKr as [HKx HKr].
    apply Forall_cons in Hle as [Hx Hle]. simpl in Hhi.
    set (l := pre ++ smalls ++ (x :: rest) ++ pv :: post).
    assert (Hpiv : l !! hi = Some pv).
    { subst l.
      replace (pre ++ smalls ++ (x :: rest) ++ pv :: post)
        with ((pre ++ smalls ++ x :: rest) ++ pv :: post)
        by (by rewrite <- !app_assoc).
      apply list_lookup_middle. rewrite !length_app. simpl. lia. }
    assert (Hxl : l !! (length pre + length smalls)%nat = Some x).
    { subst l.
      replace (pre ++ smalls ++ (x :: rest) ++ pv :: post)
        with ((pre ++ smalls) ++ x :: rest ++ pv :: post)
        by (by rewrite <- !app_assoc).
      apply list_lookup_middle. rewrite !length_app. lia. }
    change (length (x :: rest)) with (S (length rest)).
    cbn [partition_loop]. subst j.
    rewrite (do_swap_le l _ hi x pv) by (done || lia).
    mstep. rewrite Hx.
    assert (Hi1 : to_unsigned (i + 1) = (length pre + length smalls)%nat).
    { subst i. rewrite <- to_unsigned_nat by lia. f_equal. lia. }
    rewrite Hi1, to_unsigned_nat by lia.
    unfold swap_list_item. rewrite decide_True by done. mstep.
    subst l.
    replace (pre ++ smalls ++ (x :: rest) ++ pv :: post)
      with (pre ++ (smalls ++ [x]) ++ rest ++ pv :: post)
      by (by rewrite <- !app_assoc).
    apply IH; try done; solve_length.
Qed.

Lemma partition_sorted_range (pre mid post : list AttributeType) pv :
  Forall (fun x => K x = true) mid -> K pv = true ->
  Forall (fun x => le x pv = true) mid ->
  Z.of_nat (length pre + length mid) < 2 ^ 32 ->
  partition (Attr_List (pre ++ mid ++ pv :: post))
    (Z.of_nat (length pre)) (Z.of_nat (length pre + length mid)) lst_idx
  = Ok (Attr_List (pre ++ mid ++ pv :: post),
        Z.of_nat (length pre + length mid)) [].
Proof.
  intros Hmid Hpv Hle Hfit. unfold partition, op_index. simpl. mstep.
  rewrite to_unsigned_nat by done.
  replace (Z.to_nat (Z.of_nat (length pre + length mid)
                     - Z.of_nat (length pre)))
    with (length mid) by lia.
  pose proof (partition_loop_all_small pv pre post Hpv mid []
                (length pre + length mid)%nat (Z.of_nat (length pre) - 1)
                (Z.of_nat (length pre))) as Hrun.
  simpl in Hrun. rewrite Hrun; try done; try solve_length.
  mstep.
  replace (Z.of_nat (length pre + length mid) - 1 + 1)
    with (Z.of_nat (length pre + length mid)) by lia.
  rewrite to_unsigned_nat by lia.
  unfold swap_list_item. rewrite decide_True by done. by mstep.
Qed.

Lemma quicksort_sorted_range :
  forall fuel (pre mid post : list AttributeType),
    Forall (fun x => K x = true) mid ->
    StronglySorted (fun x y => le x y = true) mid ->
    (length mid <= S fuel)%nat ->
    Z.of_nat (length pre + length mid) < 2 ^ 32 ->
    quicksort fuel (Attr_List (pre ++ mid ++ post))
      (Z.of_nat (length pre)) (Z.of_nat (length pre + length mid) - 1)
      lst_idx
    = Ok (Attr_List (pre ++ mid ++ post)) [].
Proof.
  intros fuel.
  induction fuel as [|fuel IH]; intros pre mid post HKm Hsorted Hfuel Hfit;
    rewrite quicksort_unfold.
  - by rewrite (proj2 (Z.geb_le _ _)) by lia.
  - destruct (decide (length mid <= 1)%nat) as [Hshort|Hlong].
    { by rewrite (proj2 (Z.geb_le _ _)) by lia. }
    rewrite Z.geb_leb, (proj2 (Z.leb_gt _ _)) by lia.
    destruct (exists_last (l := mid)) as (mid0 & pv & ->);
      [by intros ->; simpl in Hlong; lia|].
    apply Forall_app in HKm as [HK0 [HKpv _]%Forall_cons].
    apply StronglySorted_app in Hsorted as (Hcross & Hsorted0 & _).
    rewrite length_app in *. simpl length in *.
    replace (pre ++ (mid0 ++ [pv]) ++ post) with (pre ++ mid0 ++ pv :: post)
      by (by rewrite <- !app_assoc).
    replace (Z.of_nat (length pre + (length mid0 + 1)) - 1)
      with (Z.of_nat (length pre + length mid0)) by lia.
    rewrite partition_sorted_range; [|done|done| |lia].
    2:{ apply Forall_forall. intros x Hx. apply Hcross; [done|].
        by apply list_elem_of_singleton. }
    mstep. rewrite (IH pre mid0 (pv :: post)) by (done || lia).
    mstep. rewrite quicksort_unfold.
    by rewrite (proj2 (Z.geb_le _ _)) by lia.
Qed.

End Ordering.

(** ** Further properties of sort *)

Lemma adjacent_StronglySorted {T} (R : T -> T -> Prop) (l : list T) :
  (forall x y z, R x y -> R y z -> R x z) ->
  (forall i x y, l !! i = Some x -> l !! S i = Some y -> R x y) ->
  StronglySorted R l.
Proof.
  intros Htrans. induction l as [|a l IH]; intros Hadj; [constructor|].
  constructor.
  - apply IH. intros i x y. apply (Hadj (S i)).
  - destruct l as [|b l]; [constructor|].
    assert (Hab : R a b) by (by apply (Hadj 0%nat)).
    assert (Hl : StronglySorted R (b :: l))
      by (apply IH; intros i x y; apply (Hadj (S i))).
    apply StronglySorted_inv in Hl as [_ Hb].
    constructor; [done|].
    eapply Forall_impl; [exact Hb|]. intros c. by apply Htrans.
Qed.

Lemma sort_list_quicksort idx (l : list AttributeType) :
  Z.of_nat (length l) < 2 ^ 31 ->
  sort idx (Attr_List l)
  = quicksort (length l) (Attr_List l) 0 (Z.of_nat (length l) - 1) idx.
Proof.
  intros Hfit. unfold sort. simpl. mstep. by rewrite wrap32s_small by lia.
Qed.

(** X8. [sort] leaves a list that is already in order as it is: a list of
    strings, of signed or of unsigned integers in which every element is
    at most its successor. *)
Theorem sort_of_sorted_list_is_identity (l : list AttributeType)
    (key_path : Z)
    (Hkind : homogeneous l = true)
    (Hfit : Z.of_nat (length l) < 2 ^ 31)
    (Hsorted : forall i x y,
        l !! i = Some x -> l !! S i = Some y -> attr_le x y = true) :
  sort key_path (Attr_List l) = Ok (Attr_List l) [].
Proof.
  destruct (homogeneous_kind l Hkind) as (K & HK & HKl).
  rewrite sort_list_quicksort by done.
  pose proof (quicksort_sorted_range key_path K attr_le
                (fun l j hi x pv Hx Hpv =>
                   do_swap_in_list K l j hi x pv key_path HK Hx Hpv)
                (length l) [] l [] HKl) as Hrun.
  simpl in Hrun. rewrite app_nil_r in Hrun. apply Hrun; [|lia|lia].
  apply adjacent_StronglySorted; [apply attr_le_trans | done].
Qed.

Lemma sort_of_sorted_list_is_identity_witness :
  sort 0 (Attr_List (map Attr_Integer [-3; 0; 0; 8]))
  = Ok (Attr_List (map Attr_Integer [-3; 0; 0; 8])) [].
Proof.
  apply (sort_of_sorted_list_is_identity (map Attr_Integer [-3; 0; 0; 8]) 0);
    [reflexivity | simpl; lia |].
  intros [|[|[|[|i]]]] x y Hx Hy; simpl in Hx, Hy; try discriminate;
    injection Hx as <-; injection Hy as <-; reflexivity.
Defined.

(** X9. Sorting twice is sorting once: [sort] returns a list that a second
    [sort] does not change. *)
Theorem sort_is_idempotent (l : list AttributeType) (key_path : Z)
    (Hkind : homogeneous l = true)
    (Hfit : Z.of_nat (length l) < 2 ^ 31) :
  exists l',
    sort key_path (Attr_List l) = Ok (Attr_List l') []
    /\ (a <- sort key_path (Attr_List l) ;; sort key_path a)
       = Ok (Attr_List l') [].
Proof.
  destruct (homogeneous_kind l Hkind) as (K & HK & HKl).
  destruct (quicksort_segments K key_path HK (length l) [] l [] HKl)
    as (l' & Hrun & Hperm & Hsorted); [lia|simpl; lia|].
  simpl in Hrun. rewrite !app_nil_r in Hrun.
  assert (Hsort : sort key_path (Attr_List l) = Ok (Attr_List l') [])
    by (by rewrite sort_list_quicksort).
  exists l'. split; [done|]. rewrite Hsort. mstep.
  assert (Hlen : length l' = length l) by (by rewrite Hperm).
  rewrite sort_list_quicksort by lia.
  pose proof (quicksort_sorted_range key_path K attr_le
                (fun l j hi x pv Hx Hpv =>
                   do_swap_in_list K l j hi x pv key_path HK Hx Hpv)
                (length l') [] l' []) as Hagain.
  simpl in Hagain. rewrite app_nil_r in Hagain.
  apply Hagain; [by rewrite <- Hperm | done | lia | lia].
Qed.

Lemma sort_is_idempotent_witness :
  (a <- sort 0 (Attr_List (map Attr_Integer [5; -1; 3])) ;; sort 0 a)
  = Ok (Attr_List (map Attr_Integer [-1; 3; 5])) [].
Proof.
  destruct (sort_is_idempotent (map Attr_Integer [5; -1; 3]) 0)
    as (l' & Hsort & Htwice); [reflexivity | simpl; lia |].
  rewrite Htwice. vm_compute in Hsort. by injection Hsort as <-.
Defined.

(** ** Rows *)

Lemma row_le_total Kc idx x y :
  sortable_kind Kc ->
  row_kind Kc idx x = true -> row_kind Kc idx y = true ->
  row_le idx x y = false -> row_le idx y x = true.
Proof.
  unfold row_kind, row_le. intros HK Hx Hy.
  destruct (row_key idx x) as [a|], (row_key idx y) as [b|]; try done.
  by apply (attr_le_total Kc).
Qed.

Lemma row_le_trans idx x y z :
  row_le idx x y = true -> row_le idx y z = true -> row_le idx x z = true.
Proof.
  unfold row_le.
  destruct (row_key idx x) as [a|], (row_key idx y) as [b|],
    (row_key idx z) as [c|]; try done.
  apply attr_le_trans.
Qed.

Lemma do_swap_rows Kc idx (l : list AttributeType) (j hi : nat) x pv :
  sortable_kind Kc ->
  row_kind Kc idx x = true -> row_kind Kc idx pv = true ->
  l !! j = Some x -> l !! hi = Some pv ->
  Z.of_nat j < 2 ^ 32 ->
  do_swap (Attr_List l) (ListItem hi) idx (Z.of_nat j)
  = Ok (Some (row_le idx x pv)) [].
Proof.
  intros HK Hx Hpv Hj Hhi Hfit. unfold do_swap, op_index. simpl.
  rewrite bind_ret. simpl. rewrite to_unsigned_nat, Hj by done.
  mstep. unfold row_kind, row_le, row_key in *.
  destruct x as [| | | | | | | |rx| |]; try done.
  destruct pv as [| | | | | | | |rp| |]; try done.
  simpl. mstep. simpl.
  destruct (rx !! to_unsigned idx) as [a|]; [|done].
  destruct (rp !! to_unsigned idx) as [b|] eqn:Hb; [|done].
  mstep.
  destruct HK as [->|[->| ->]]; destruct a; try done; destruct b; try done;
    simpl; rewrite ?Hhi; msimpl; rewrite ?Hb; by msimpl.
Qed.

Lemma rows_homogeneous_kind idx l :
  rows_homogeneous idx l = true ->
  exists Kc, sortable_kind Kc
             /\ Forall (fun x => row_kind Kc idx x = true) l.
Proof.
  unfold rows_homogeneous, sortable_kind.
  intros [[H|H]%orb_prop|H]%orb_prop;
    rewrite forallb_forall in H;
    [exists is_string | exists is_int64 | exists is_uint64];
    (split; [tauto|]); apply Forall_forall; intros x Hx;
    by apply H, list_elem_of_In.
Qed.

(** X10. [sort(idx)] on a list of fewer than [2^31] rows (the size
    fits the [int] that [sort] casts it to), each a list, whose elements
    at position [idx] are all strings, all signed or all unsigned
    integers returns, without a diagnostic, the same rows in an order in
    which the element at [idx] of every row is at most that of the next
    row. *)
Theorem sort_rows_by_column (l : list AttributeType) (idx : Z)
    (Hrows : rows_homogeneous idx l = true)
    (Hfit : Z.of_nat (length l) < 2 ^ 31) :
  exists l',
    sort idx (Attr_List l) = Ok (Attr_List l') []
    /\ l ≡ₚ l'
    /\ (forall i x y,
          l' !! i = Some x -> l' !! S i = Some y -> row_le idx x y = true).
Proof.
  destruct (rows_homogeneous_kind idx l Hrows) as (Kc & HK & HKl).
  destruct (quicksort_ordered idx (row_kind Kc idx) (row_le idx)
              (fun x y => row_le_total Kc idx x y HK)
              (row_le_trans idx)
              (fun l j hi x pv => do_swap_rows Kc idx l j hi x pv HK)
              (length l) [] l [] HKl)
    as (l' & Hrun & Hperm & Hsorted); [lia|simpl; lia|].
  exists l'. split; [|split; [done|]].
  - rewrite sort_list_quicksort by done. simpl in Hrun.
    by rewrite !app_nil_r in Hrun.
  - intros i x y.
    apply (StronglySorted_adjacent (fun x y => row_le idx x y = true) l' i x y
             Hsorted).
Qed.

Lemma sort_rows_by_column_witness :
  exists l',
    sort 1 (Attr_List
              [Attr_List [Attr_String (txt "main"); Attr_UInteger 4096];
               Attr_List [Attr_String (txt "exit"); Attr_UInteger 64];
               Attr_List [Attr_String (txt "init"); Attr_UInteger 512]])
    = Ok (Attr_List l') []
    /\ l' = [Attr_List [Attr_String (txt "exit"); Attr_UInteger 64];
             Attr_List [Attr_String (txt "init"); Attr_UInteger 512];
             Attr_List [Attr_String (txt "main"); Attr_UInteger 4096]].
Proof.
  destruct (sort_rows_by_column
              [Attr_List [Attr_String (txt "main"); Attr_UInteger 4096];
               Attr_List [Attr_String (txt "exit"); Attr_UInteger 64];
               Attr_List [Attr_String (txt "init"); Attr_UInteger 512]] 1)
    as (l' & Hsort & _); [reflexivity | simpl; lia |].
  exists l'. split; [done|].
  vm_compute in Hsort. by injection Hsort as <-.
Defined.

(** ** What sort keeps, whatever the elements are *)

Lemma swap_list_item_perm n m (l : list AttributeType) a log :
  swap_list_item n m (Attr_List l) = Ok a log ->
  exists l', a = Attr_List l' /\ l ≡ₚ l'.
Proof.
  unfold swap_list_item. destruct (decide (n = m)) as [_|_].
  - intros [= <- _]. by exists l.
  - destruct (l !! n) as [x|] eqn:Hn; [|done].
    destruct (l !! m) as [y|] eqn:Hm; [|done].
    intros [= <- _]. eexists; split; [done|].
    symmetry. by apply Permutation_insert_swap.
Qed.

Lemma partition_loop_perm n :
  forall (l : list AttributeType) pivot lst_idx i j r log,
    partition_loop n (Attr_List l) pivot lst_idx i j = Ok r log ->
    exists l' p,
      (r = inl (Attr_List l', p) \/ r = inr (Attr_List l', p)) /\ l ≡ₚ l'.
Proof.
  induction n as [|n IH]; intros l pivot lst_idx i j r log;
    cbn [partition_loop].
  - intros [= <- _]. exists l, i. by split; [left|].
  - intros (sw & l1 & l2 & _ & Hrest & _)%bind_inv.
    destruct sw as [[|]|].
    + apply bind_inv in Hrest as (A' & l3 & l4 & Hswap & Hrest & _).
      apply swap_list_item_perm in Hswap as (l' & -> & Hperm).
      apply IH in Hrest as (l'' & p & Hr & Hperm').
      exists l'', p. split; [done|]. by rewrite Hperm.
    + by apply IH in Hrest.
    + injection Hrest as <- _. exists l, (i + 1). by split; [right|].
Qed.

Lemma partition_perm (l : list AttributeType) lo hi lst_idx A' p log :
  partition (Attr_List l) lo hi lst_idx = Ok (A', p) log ->
  exists l', A' = Attr_List l' /\ l ≡ₚ l'.
Proof.
  unfold partition.
  intros (pivot & l1 & l2 & _ & Hrest & _)%bind_inv.
  apply bind_inv in Hrest as (r & l3 & l4 & Hloop & Hrest & _).
  apply partition_loop_perm in Hloop as (l' & q & [-> | ->] & Hperm).
  - apply bind_inv in Hrest as (A'' & l5 & l6 & Hswap & Hret & _).
    apply swap_list_item_perm in Hswap as (l'' & -> & Hperm').
    injection Hret as <- _ _. exists l''. split; [done|].
    by rewrite Hperm.
  - injection Hrest as <- _ _. by exists l'.
Qed.

Lemma quicksort_perm lst_idx fuel :
  forall (l : list AttributeType) lo hi A' log,
    quicksort fuel (Attr_List l) lo hi lst_idx = Ok A' log ->
    exists l', A' = Attr_List l' /\ l ≡ₚ l'.
Proof.
  induction fuel as [|fuel IH]; intros l lo hi A' log;
    rewrite quicksort_unfold; destruct (lo >=? hi).
  - intros [= <- _]. by exists l.
  - done.
  - intros [= <- _]. by exists l.
  - intros ([A1 p] & l1 & l2 & Hpart & Hrest & _)%bind_inv.
    apply partition_perm in Hpart as (l' & -> & Hperm).
    apply bind_inv in Hrest as (A2 & l3 & l4 & Hleft & Hright & _).
    apply IH in Hleft as (l'' & -> & Hperm').
    apply IH in Hright as (l''' & -> & Hperm'').
    exists l'''. split; [done|]. by rewrite Hperm, Hperm'.
Qed.

(** X11. Whatever the kinds of the elements and whatever [sort] reports, a
    list it returns holds the elements of the list it was given, each as
    often as before: [partition] only ever exchanges two slots. *)
Theorem sort_returns_a_permutation (l : list AttributeType) (idx : Z)
    (a : AttributeType) (log : list string)
    (Hsort : sort idx (Attr_List l) = Ok a log) :
  exists l', a = Attr_List l' /\ l ≡ₚ l' /\ size a = size (Attr_List l).
Proof.
  unfold sort in Hsort.
  apply bind_inv in Hsort as (u & l1 & l2 & _ & Hrun & _).
  apply quicksort_perm in Hrun as (l' & -> & Hperm).
  exists l'. split; [done|]. split; [done|]. simpl. by rewrite Hperm.
Qed.

Lemma sort_returns_a_permutation_witness :
  exists l',
    sort 0 (Attr_List [Attr_Boolean true; Attr_Integer 3; Attr_Integer 1;
                       Attr_Integer 2])
    = Ok (Attr_List l') ["Not supported attribute type for sorting"%string]
    /\ [Attr_Boolean true; Attr_Integer 3; Attr_Integer 1; Attr_Integer 2]
       ≡ₚ l'.
Proof.
  destruct (sort_returns_a_permutation
              [Attr_Boolean true; Attr_Integer 3; Attr_Integer 1;
               Attr_Integer 2] 0
              (Attr_List [Attr_Boolean true; Attr_Integer 1; Attr_Integer 2;
                          Attr_Integer 3])
              ["Not supported attribute type for sorting"%string])
    as (l' & E & Hperm & _); [reflexivity|].
  exists l'. by rewrite <- E.
Defined.

(** ** partition *)

(** X12. [partition] on a range of strings, signed or unsigned integers puts
    the pivot (the last element of the range) at the index it returns,
    the elements at most the pivot before it and the greater ones after
    it, and touches nothing outside the range. *)
Theorem partition_splits_around_pivot (pre mid post : list AttributeType)
    (pv : AttributeType) (lst_idx : Z)
    (Hkind : homogeneous (mid ++ [pv]) = true)
    (Hfit : Z.of_nat (length pre + length mid) < 2 ^ 32) :
  exists smalls larges,
    partition (Attr_List (pre ++ mid ++ pv :: post))
      (Z.of_nat (length pre)) (Z.of_nat (length pre + length mid)) lst_idx
    = Ok (Attr_List (pre ++ smalls ++ pv :: larges ++ post),
          Z.of_nat (length pre + length smalls)) []
    /\ mid ≡ₚ smalls ++ larges
    /\ Forall (fun x => attr_le x pv = true) smalls
    /\ Forall (fun x => attr_le x pv = false) larges.
Proof.
  destruct (homogeneous_kind _ Hkind) as (K & HK & HKl).
  apply Forall_app in HKl as [HKmid [HKpv _]%Forall_cons].
  by apply (partition_segments K).
Qed.

Lemma partition_splits_around_pivot_witness :
  partition (Attr_List (map Attr_Integer [9; 7; 1; 8; 5; 0])) 1 4 0
  = Ok (Attr_List (map Attr_Integer [9; 1; 5; 8; 7; 0]), 2) [].
Proof.
  destruct (partition_splits_around_pivot
              [Attr_Integer 9] (map Attr_Integer [7; 1; 8]) [Attr_Integer 0]
              (Attr_Integer 5) 0)
    as (smalls & larges & Hrun & _); [reflexivity | simpl; lia |].
  reflexivity.
Defined.

(** X13. The index [partition] returns lies in the range it was given. *)
Theorem partition_index_in_range (A A' : AttributeType) (lo hi lst_idx p : Z)
    (log : list string)
    (Hrange : lo < hi)
    (Hrun : partition A lo hi lst_idx = Ok (A', p) log) :
  lo <= p <= hi.
Proof. by apply (partition_bounds A lo hi lst_idx A' p log). Qed.

Lemma partition_index_in_range_witness :
  exists A' p,
    partition (Attr_List (map Attr_Integer [3; 1; 2])) 0 2 0 = Ok (A', p) []
    /\ 0 <= p <= 2.
Proof.
  eexists _, _. split; [reflexivity|].
  apply (partition_index_in_range
           (Attr_List (map Attr_Integer [3; 1; 2]))
           (Attr_List (map Attr_Integer [1; 2; 3])) 0 2 0 1 []);
    [lia | reflexivity].
Defined.

(** X14. [quicksort] always comes to an end: each call recurses on two ranges
    strictly shorter than its own, so the calls of a sort never nest
    deeper than the size of the value. *)
Theorem sort_recursion_is_bounded (idx : Z) (A : AttributeType) :
  sort idx A <> OutOfFuel
  /\ forall fuel lo hi,
       hi - lo <= Z.of_nat fuel -> quicksort fuel A lo hi idx <> OutOfFuel.
Proof.
  split; [apply sort_fuel_adequate|].
  intros fuel lo hi. apply quicksort_fuel_adequate.
Qed.





(** ** Trimming from the front *)

(** X16. [trim_list(0, e)] with [0 < e <= size] removes the first [e] elements
    and keeps the others in order. *)
Theorem trim_list_drops_prefix (l : list AttributeType) (e : nat)
    (He : (0 < e <= length l)%nat)
    (Hfit : Z.of_nat (length l) < 2 ^ 32)
    (Hl : Forall (fun x => constructible x = true) l) :
  trim_list 0 e (Attr_List l) = Ok (Attr_List (drop e l)) []
  /\ size (Attr_List (drop e l)) = (size (Attr_List l) - e)%nat.
Proof.
  split; [by apply trim_list_from_zero|]. simpl. by rewrite length_drop.
Qed.

Lemma trim_list_drops_prefix_witness :
  trim_list 0 2 (Attr_List (map Attr_Integer [0; 1; 2; 3; 4]))
  = Ok (Attr_List (map Attr_Integer [2; 3; 4])) [].
Proof.
  apply (trim_list_drops_prefix (map Attr_Integer [0; 1; 2; 3; 4]) 2);
    [simpl; lia | simpl; lia | by repeat constructor].
Defined.

(** ** Removal from a dictionary *)



(** ** Further properties of the decoder *)

(** ** Blanks *)

Lemma skip_special_blanks ws t :
  forallb is_special ws = true -> skip_special (ws ++ t) = skip_special t.
Proof.
  induction ws as [|c ws IH]; [done|]. cbn [forallb app skip_special].
  intros [-> Hws]%andb_prop. by apply IH.
Qed.

Lemma skip_special_split s :
  exists ws,
    s = ws ++ skip_special s /\ forallb is_special ws = true
    /\ is_special (hd NUL (skip_special s)) = false.
Proof.
  induction s as [|c s (ws & Hs & Hws & Hhd)]; [by exists []|].
  cbn [skip_special]. destruct (is_special c) eqn:Hc.
  - exists (c :: ws). cbn [forallb app]. rewrite Hc, Hws.
    by rewrite <- Hs.
  - exists []. by cbn [hd].
Qed.

(** X17. [skip_special_symbols] returns the position of the first character
    that is no space, carriage return, line feed or tab: what it passes
    over is blank, a second call moves no further, and it stops at the
    terminator. *)
Theorem skip_special_symbols_stops_at_token (s : text) :
  exists ws r,
    skip_special_symbols (Ptr s) = Ok (Ptr r) []
    /\ s = ws ++ r
    /\ forallb is_special ws = true
    /\ is_special (hd NUL r) = false
    /\ skip_special_symbols (Ptr r) = Ok (Ptr r) [].
Proof.
  destruct (skip_special_split s) as (ws & Hs & Hws & Hhd).
  exists ws, (skip_special s).
  split; [reflexivity|]. split; [done|]. split; [done|]. split; [done|].
  cbn [skip_special_symbols].
  destruct (skip_special s) as [|c r]; [done|].
  cbn [hd] in Hhd. cbn [skip_special]. by rewrite Hhd.
Qed.

Section DecoderEdges.
Variable IFACE_SERVICE : text.
Variable RISCV_get_service : text -> option IFace.

Local Notation "'s2a'" :=
  (string_to_attribute IFACE_SERVICE RISCV_get_service).

Lemma string_to_attribute_S fuel cfg out :
  s2a (S fuel) cfg out
  = (pcur <- skip_special_symbols cfg ;;
     c <- peek pcur ;;
     if bool_decide (c = "'") || bool_decide (c = chr 34) then
       let t1 := c in
       match next pcur with
       | Beyond k => Overrun k
       | Ptr s =>
           let '(str_sz, stop) := scan_string t1 s in
           buf <- write_bin cfg str_sz ;;
           ret (next (Ptr stop), make_string (Some buf) out)
       end
     else if decide (c = "[") then
       pcur <- skip_special_symbols (next pcur) ;;
       '(pcur, out) <- list_loop IFACE_SERVICE RISCV_get_service fuel pcur
                         default_attribute (make_list 0 out) ;;
       pcur <- skip_special_symbols (next pcur) ;;
       ret (pcur, out)
     else if decide (c = "{") then
       let out := make_dict out in
       pcur <- skip_special_symbols (next pcur) ;;
       '(pcur, out) <- dict_loop IFACE_SERVICE RISCV_get_service fuel pcur
                         default_attribute default_attribute out ;;
       pcur <- skip_special_symbols (next pcur) ;;
       out <- resolve_service IFACE_SERVICE RISCV_get_service out ;;
       ret (pcur, out)
     else if decide (c = "(") then
       pcur <- skip_special_symbols (next pcur) ;;
       '(pcur, buf) <- data_loop fuel pcur [] ;;
       out <- make_data (length buf) buf out ;;
       pcur <- skip_special_symbols (next pcur) ;;
       ret (pcur, out)
     else
       pcur <- skip_special_symbols pcur ;;
       is_none <- literal_at (txt "None") pcur ;;
       if is_none then ret (advance 4 pcur, out)
       else
         is_false <- literal_at (txt "false") pcur ;;
         if is_false then ret (advance 5 pcur, make_boolean false out)
         else
           is_true <- literal_at (txt "true") pcur ;;
           if is_true then ret (advance 4 pcur, make_boolean true out)
           else
             '(pcur, t1) <- integer_literal pcur ;;
             ret (pcur, make_int64 t1 out)).
Proof. reflexivity. Qed.

Lemma list_loop_S fuel pcur new_item out :
  list_loop IFACE_SERVICE RISCV_get_service (S fuel) pcur new_item out
  = (c <- peek pcur ;;
     if bool_decide (c = "]") || bool_decide (c = NUL) then ret (pcur, out)
     else
       '(pcur, new_item) <- s2a fuel pcur new_item ;;
       out <- realloc_list (size out + 1) out ;;
       r <- op_index out (size out - 1) ;;
       out <- assign out r new_item ;;
       pcur <- skip_separator pcur ;;
       list_loop IFACE_SERVICE RISCV_get_service fuel pcur new_item out).
Proof. reflexivity. Qed.

(** X18. Blanks in front of a token that is no string are passed over: the
    text decodes as it does without them. *)
Theorem leading_blanks_are_skipped (ws t : text) (out : AttributeType)
    (fuel : nat)
    (Hws : forallb is_special ws = true)
    (Hsq : hd NUL (skip_special t) <> "'")
    (Hdq : hd NUL (skip_special t) <> chr 34) :
  s2a fuel (Ptr (ws ++ t)) out = s2a fuel (Ptr t) out.
Proof.
  destruct fuel as [|fuel]; [done|]. rewrite !string_to_attribute_S.
  cbn [skip_special_symbols]. rewrite skip_special_blanks by done.
  mstep. mstep.
  assert (Hpeek : peek (Ptr (skip_special t))
                  = Ok (hd NUL (skip_special t)) [])
    by (by destruct (skip_special t)).
  rewrite Hpeek. mstep. mstep.
  rewrite (bool_decide_eq_false_2 _ Hsq), (bool_decide_eq_false_2 _ Hdq).
  done.
Qed.

(** ** String tokens *)









(** ** Texts without a token *)

(** X21. A text of blanks only, the empty text among them, decodes to the
    signed integer 0. *)
Theorem blank_text_decodes_to_zero (ws : text) (out : AttributeType)
    (fuel : nat)
    (Hws : forallb is_special ws = true) :
  s2a (S fuel) (Ptr ws) out = Ok (Ptr [], Attr_Integer 0) []
  /\ from_config IFACE_SERVICE RISCV_get_service (S fuel) ws out
     = Ok (Attr_Integer 0) [].
Proof.
  assert (Hskip : skip_special ws = []).
  { rewrite <- (app_nil_r ws). by rewrite skip_special_blanks. }
  assert (Hrun : s2a (S fuel) (Ptr ws) out = Ok (Ptr [], Attr_Integer 0) []).
  { rewrite string_to_attribute_S. cbn [skip_special_symbols].
    rewrite Hskip. reflexivity. }
  split; [done|]. unfold from_config. by rewrite Hrun.
Qed.

Lemma stray_facts c :
  stray c = true ->
  is_special c = false /\ is_hex_char c = false
  /\ bool_decide (c = "'") || bool_decide (c = chr 34) = false
  /\ c <> "[" /\ c <> "{" /\ c <> "("
  /\ bool_decide (c = "]") || bool_decide (c = NUL) = false
  /\ c <> "," /\ c <> "N" /\ c <> "t" /\ c <> "f" /\ c <> "0".
Proof.
  unfold stray. intros H.
  repeat (apply andb_prop in H as [H ?]).
  repeat match goal with
         | H : negb _ = true |- _ => apply negb_true_iff in H
         end.
  repeat match goal with
         | H : bool_decide _ = false |- _ => apply bool_decide_eq_false in H
         end.
  repeat split; try done.
  - by rewrite !bool_decide_eq_false_2.
  - by rewrite !bool_decide_eq_false_2.
  - by intros ->.
  - by intros ->.
Qed.

(** X22. A character that starts no token is read as the integer 0 and is not
    consumed.  The loop of a list that stands at such a character
    therefore appends 0 and meets the same character again, without end:
    the decoder does not return, whatever the list holds so far and
    whatever follows the character. *)
Theorem stray_character_stalls_list (c : ascii) (rest : text)
    (Hc : stray c = true) :
  (forall fuel out,
      s2a (S fuel) (Ptr (c :: rest)) out
      = Ok (Ptr (c :: rest), Attr_Integer 0) [])
  /\ (forall fuel new_item acc,
        list_loop IFACE_SERVICE RISCV_get_service fuel (Ptr (c :: rest))
          new_item (Attr_List acc)
        = OutOfFuel)
  /\ (forall fuel out, s2a fuel (Ptr ("[" :: c :: rest)) out = OutOfFuel).
Proof.
  destruct (stray_facts c Hc)
    as (Hsp & Hhex & Hquote & Hl & Hd & Hp & Hclose & Hcomma & HN & Ht & Hf
        & H0).
  assert (Hone : forall fuel out,
             s2a (S fuel) (Ptr (c :: rest)) out
             = Ok (Ptr (c :: rest), Attr_Integer 0) []).
  { intros fuel out. rewrite string_to_attribute_S.
    cbn [skip_special_symbols skip_special]. rewrite Hsp.
    mstep. cbn [peek]. mstep. rewrite Hquote.
    rewrite !decide_False by done.
    cbn [skip_special_symbols skip_special]. rewrite Hsp. mstep.
    cbn [literal_at txt list_ascii_of_string peek]. mstep.
    rewrite decide_False by done. mstep. mstep.
    rewrite decide_False by done. mstep. mstep.
    rewrite decide_False by done. mstep.
    unfold integer_literal. cbn [peek]. mstep.
    rewrite decide_False by done. mstep.
    cbn [scan_digits]. rewrite Hhex. cbn [app length].
    rewrite decide_True by lia. mstep. reflexivity. }
  split; [done|].
  assert (Hloop : forall fuel new_item acc,
             list_loop IFACE_SERVICE RISCV_get_service fuel
               (Ptr (c :: rest)) new_item (Attr_List acc)
             = OutOfFuel).
  { induction fuel as [|fuel IH]; intros new_item acc; [done|].
    rewrite list_loop_S. cbn [peek]. mstep. rewrite Hclose.
    destruct fuel as [|fuel]; [done|].
    rewrite Hone. mstep. rewrite realloc_list_grow. mstep.
    cbn [op_index is_list size]. mstep.
    rewrite length_app, Nat.add_sub.
    rewrite assign_last_item by done. mstep.
    unfold skip_separator. cbn [skip_special_symbols skip_special].
    rewrite Hsp. mstep. cbn [peek]. mstep.
    rewrite decide_False by done. mstep. apply IH. }
  split; [done|].
  intros [|fuel] out; [done|].
  rewrite string_to_attribute_S.
  cbn [skip_special_symbols skip_special].
  change (is_special "[") with false. cbv iota. mstep. cbn [peek]. mstep.
  code_cases. cbn [orb]. rewrite decide_True by done.
  cbn [next skip_special_symbols skip_special]. rewrite Hsp. mstep.
  unfold make_list. cbn [replicate]. by rewrite Hloop.
Qed.

(** ** References to services *)



(** ** What the decoder returns *)

Lemma c_str_is_c_string s : c_string (c_str s) = true.
Proof.
  induction s as [|c s IH]; [done|]. cbn [c_str].
  destruct (decide (c = NUL)) as [|Hc]; [done|].
  cbn [c_string forallb]. fold (c_string (c_str s)).
  by rewrite IH, bool_decide_eq_false_2.
Qed.

Lemma assign_list_kind l p x a log :
  assign (Attr_List l) p x = Ok a log -> exists l', a = Attr_List l'.
Proof.
  unfold assign. intros (c & ? & ? & _ & Hstore & _)%bind_inv.
  destruct p as [i| |]; try done. unfold store in Hstore.
  destruct (decide (i < length l)%nat); [|done].
  injection Hstore as <- _. by eexists.
Qed.

Lemma list_loop_kind fuel :
  forall pcur new_item acc p out log,
    list_loop IFACE_SERVICE RISCV_get_service fuel pcur new_item
      (Attr_List acc) = Ok (p, out) log ->
    exists l, out = Attr_List l.
Proof.
  induction fuel as [|fuel IH]; intros pcur new_item acc p out log; [done|].
  rewrite list_loop_S.
  intros (c & ? & ? & _ & H & _)%bind_inv.
  destruct (bool_decide (c = "]") || bool_decide (c = NUL)).
  { injection H as _ <- _. by eexists. }
  apply bind_inv in H as ([pcur1 item1] & ? & ? & _ & H & _).
  apply bind_inv in H as (out1 & ? & ? & Hre & H & _).
  injection Hre as <- _.
  apply bind_inv in H as (r & ? & ? & _ & H & _).
  apply bind_inv in H as (out2 & ? & ? & Hassign & H & _).
  apply assign_list_kind in Hassign as (l2 & ->).
  apply bind_inv in H as (pcur2 & ? & ? & _ & H & _).
  by apply IH in H.
Qed.

Lemma op_index_key_distinct d k a r log :
  distinct_keys d = true -> c_string k = true ->
  op_index_key k (Attr_Dict d) = Ok (a, r) log ->
  exists d' i, a = Attr_Dict d' /\ r = DictValue i
               /\ distinct_keys d' = true.
Proof.
  intros Hd Hk. unfold op_index_key.
  destruct (find_key_cases k d (distinct_keys_string_keyed d Hd) 0)
    as [(i & w & -> & _ & _)|[-> Habs]]; mstep.
  - intros [= <- <- _]. by exists d, (0 + i)%nat.
  - intros [= <- <- _]. eexists _, _. split; [done|]. split; [done|].
    unfold make_string, make_nil. rewrite c_str_c_string by done.
    by apply distinct_keys_snoc.
Qed.

Lemma assign_dict_distinct d i x a log :
  distinct_keys d = true ->
  assign (Attr_Dict d) (DictValue i) x = Ok a log ->
  exists d', a = Attr_Dict d' /\ distinct_keys d' = true.
Proof.
  intros Hd. unfold assign. intros (c & ? & ? & _ & Hstore & _)%bind_inv.
  unfold store, AttributePairType in *.
  destruct (d !! i) as [kv|] eqn:Hi; [|done].
  injection Hstore as <- _. eexists. split; [done|].
  by rewrite distinct_keys_insert_value.
Qed.

Lemma resolve_service_distinct d a log :
  distinct_keys d = true ->
  resolve_service IFACE_SERVICE RISCV_get_service (Attr_Dict d) = Ok a log ->
  (exists d', a = Attr_Dict d' /\ distinct_keys d' = true)
  \/ is_iface a = true.
Proof.
  intros Hd. unfold resolve_service.
  intros (b & ? & ? & _ & H & _)%bind_inv.
  destruct b; [|injection H as <- _; left; by exists d].
  apply bind_inv in H as ([out1 r1] & ? & ? & Hk & H & _).
  apply op_index_key_distinct in Hk as (d1 & i1 & -> & -> & Hd1);
    [|done|done].
  apply bind_inv in H as (tv & ? & ? & _ & H & _).
  apply bind_inv in H as (ts & ? & ? & _ & H & _).
  destruct (decide (strcmp ts IFACE_SERVICE = 0)).
  - apply bind_inv in H as ([out2 r2] & ? & ? & _ & H & _).
    apply bind_inv in H as (mv & ? & ? & _ & H & _).
    apply bind_inv in H as (name & ? & ? & _ & H & _).
    injection H as <- _. by right.
  - apply bind_inv in H as (u & ? & ? & _ & H & _).
    injection H as <- _. left. by exists d1.
Qed.

Lemma token_shape_nul_free c out a :
  token_shape c out a -> nul_free out = true -> nul_free a = true.
Proof.
  unfold token_shape. intros H Hout.
  destruct (bool_decide (c = "'") || bool_decide (c = chr 34));
    [by destruct H as (t & -> & ?)|].
  destruct (bool_decide (c = "[")); [by destruct a|].
  destruct (bool_decide (c = "{"));
    [destruct H as [(d & -> & _)|H]; [done|by destruct a]|].
  destruct (bool_decide (c = "(")); [by destruct a|].
  destruct H as [->|[H|H]]; [done|by destruct a..].
Qed.

Lemma decoder_shape fuel :
  (forall s out p a log,
      s2a fuel (Ptr s) out = Ok (p, a) log ->
      token_shape (hd NUL (skip_special s)) out a)
  /\ (forall pcur new_key new_value d p out log,
        nul_free new_key = true -> distinct_keys d = true ->
        dict_loop IFACE_SERVICE RISCV_get_service fuel pcur new_key new_value
          (Attr_Dict d) = Ok (p, out) log ->
        exists d', out = Attr_Dict d' /\ distinct_keys d' = true).
Proof.
  induction fuel as [|fuel [IHs IHd]]; [by split|]. split.
  - intros s out p a log. rewrite string_to_attribute_S.
    cbn [skip_special_symbols]. mstep.
    assert (Hpeek : peek (Ptr (skip_special s))
                    = Ok (hd NUL (skip_special s)) [])
      by (by destruct (skip_special s)).
    rewrite Hpeek. mstep. unfold token_shape.
    set (c := hd NUL (skip_special s)).
    destruct (bool_decide (c = "'") || bool_decide (c = chr 34)).
    { destruct (next (Ptr (skip_special s))) as [s1|]; [|done].
      destruct (scan_string c s1) as [str_sz stop].
      intros (buf & ? & ? & _ & H & _)%bind_inv.
      injection H as _ <- _. eexists. split; [reflexivity|].
      apply c_str_is_c_string. }
    destruct (decide (c = "[")) as [Hl|Hl].
    { rewrite bool_decide_eq_true_2 by done.
      intros (pcur1 & ? & ? & _ & H & _)%bind_inv.
      apply bind_inv in H as ([pcur2 out2] & ? & ? & Hloop & H & _).
      apply list_loop_kind in Hloop as (l & ->).
      apply bind_inv in H as (pcur3 & ? & ? & _ & H & _).
      by injection H as _ <- _. }
    rewrite (bool_decide_eq_false_2 _ Hl).
    destruct (decide (c = "{")) as [Hd|Hd].
    { rewrite bool_decide_eq_true_2 by done.
      intros (pcur1 & ? & ? & _ & H & _)%bind_inv.
      apply bind_inv in H as ([pcur2 out2] & ? & ? & Hloop & H & _).
      apply IHd in Hloop as (d' & -> & Hd'); [|done|done].
      apply bind_inv in H as (pcur3 & ? & ? & _ & H & _).
      apply bind_inv in H as (out3 & ? & ? & Hres & H & _).
      injection H as _ <- _.
      by apply resolve_service_distinct in Hres. }
    rewrite (bool_decide_eq_false_2 _ Hd).
    destruct (decide (c = "(")) as [Hp|Hp].
    { rewrite bool_decide_eq_true_2 by done.
      intros (pcur1 & ? & ? & _ & H & _)%bind_inv.
      apply bind_inv in H as ([pcur2 buf] & ? & ? & _ & H & _).
      apply bind_inv in H as (out2 & ? & ? & Hmk & H & _).
      apply bind_inv in H as (pcur3 & ? & ? & _ & H & _).
      injection H as _ <- _. unfold make_data in Hmk.
      destruct (decide (length buf <= length buf)%nat); [|done].
      by injection Hmk as <- _. }
    rewrite (bool_decide_eq_false_2 _ Hp).
    intros (pcur1 & ? & ? & _ & H & _)%bind_inv.
    apply bind_inv in H as (is_none & ? & ? & _ & H & _).
    destruct is_none; [injection H as _ <- _; by left|].
    apply bind_inv in H as (is_false & ? & ? & _ & H & _).
    destruct is_false; [injection H as _ <- _; right; by left|].
    apply bind_inv in H as (is_true & ? & ? & _ & H & _).
    destruct is_true; [injection H as _ <- _; right; by left|].
    apply bind_inv in H as ([pcur2 t1] & ? & ? & _ & H & _).
    injection H as _ <- _. right. by right.
  - intros pcur new_key new_value d p out log Hnk Hd.
    rewrite dict_loop_S.
    intros (c & ? & ? & _ & H & _)%bind_inv.
    destruct (bool_decide (c = "}") || bool_decide (c = NUL)).
    { injection H as _ <- _. by exists d. }
    apply bind_inv in H as ([pcur1 key1] & ? & ? & Hkey & H & _).
    destruct pcur as [s|k]; [|by destruct fuel].
    apply IHs, token_shape_nul_free in Hkey; [|done].
    apply bind_inv in H as (pcur2 & ? & ? & _ & H & _).
    apply bind_inv in H as (c2 & ? & ? & _ & H & _).
    apply bind_inv in H as (pcur3 & ? & ? & _ & H & _).
    apply bind_inv in H as ([pcur4 value1] & ? & ? & _ & H & _).
    apply bind_inv in H as (key & ? & ? & Hto & H & _).
    destruct key1 as [| | | | | |t| | | |]; try done.
    injection Hto as <- _. cbn [nul_free] in Hkey.
    apply bind_inv in H as ([out1 r1] & ? & ? & Hk & H & _).
    apply op_index_key_distinct in Hk as (d1 & i1 & -> & -> & Hd1);
      [|done|done].
    apply bind_inv in H as (out2 & ? & ? & Hassign & H & _).
    apply assign_dict_distinct in Hassign as (d2 & -> & Hd2); [|done].
    apply bind_inv in H as (pcur5 & ? & ? & _ & H & _).
    by apply IHd in H.
Qed.

(** X24. The kind of a decoded value is decided by the first character after
    the blanks: a quote gives a string without NUL, an opening square
    bracket a list, an opening brace a dictionary with pairwise distinct
    string keys or a reference to a service, an opening parenthesis
    data, and any other character a boolean, a signed integer or, for
    [None], the attribute as it was. *)
Theorem decoded_kind_follows_first_character (fuel : nat) (s : text)
    (out a : AttributeType) (p : cptr) (log : list string)
    (Hrun : s2a fuel (Ptr s) out = Ok (p, a) log) :
  token_shape (hd NUL (skip_special s)) out a.
Proof. by apply (proj1 (decoder_shape fuel)) in Hrun. Qed.

(** X25. A dictionary the decoder returns for a token that opens with a
    brace holds no key twice, whatever the text repeats: a repeated key
    assigns to the entry of its first occurrence. *)
Theorem decoded_dictionary_has_distinct_keys (fuel : nat) (s : text)
    (out : AttributeType) (d : list AttributePairType) (p : cptr)
    (log : list string)
    (Hopen : hd NUL (skip_special s) = "{")
    (Hrun : s2a fuel (Ptr s) out = Ok (p, Attr_Dict d) log) :
  distinct_keys d = true /\ string_keyed d = true.
Proof.
  apply (proj1 (decoder_shape fuel)) in Hrun.
  rewrite Hopen in Hrun. unfold token_shape in Hrun.
  cbn [bool_decide orb] in Hrun. 
  assert (Hd : distinct_keys d = true).
  { revert Hrun. code_cases. cbn [orb].
    rewrite bool_decide_eq_true_2 by done.
    by intros [(d' & [= <-] & ?)|?]. }
  split; [done|]. by apply distinct_keys_string_keyed.
Qed.

(** ** Integers *)

Lemma wrap64_unsigned u :
  uint64_range u = true ->
  int64_range (wrap64s u) = true /\ wrap64u (wrap64s u) = u.
Proof.
  unfold uint64_range, int64_range, wrap64s, wrap64u.
  intros [H1%Z.leb_le H2%Z.ltb_lt]%andb_prop.
  pose proof (Z.mod_pos_bound (u + 2 ^ 63) (2 ^ 64)) as Hb.
  split.
  - apply andb_true_intro. split; [apply Z.leb_le|apply Z.ltb_lt]; lia.
  - destruct (decide (u < 2 ^ 63)) as [Hlow|Hhigh].
    + rewrite (Z.mod_small (u + 2 ^ 63)) by lia.
      rewrite Z.mod_small by lia. lia.
    + rewrite <- (Z.mod_add (u + 2 ^ 63) (-1) (2 ^ 64)) by lia.
      rewrite (Z.mod_small (u + 2 ^ 63 + -1 * 2 ^ 64)) by lia.
      rewrite <- (Z.mod_add _ 1 (2 ^ 64)) by lia.
      rewrite Z.mod_small by lia. lia.
Qed.

(** X26. The text of an unsigned integer is its decimal digits, and they
    decode to the signed integer of the same 64 bits: the value itself
    below 2^63, the value minus 2^64 from there on. *)
Theorem unsigned_integer_decodes_signed (sprintf_4f : Z -> text) (u : Z)
    (out : AttributeType) (fuel : nat)
    (Hu : uint64_range u = true) :
  to_config IFACE_SERVICE sprintf_4f (Attr_UInteger u)
  = Ok (write_uint64 u) []
  /\ from_config IFACE_SERVICE RISCV_get_service (S fuel) (write_uint64 u) out
     = Ok (Attr_Integer (if u <? 2 ^ 63 then u else u - 2 ^ 64)) [].
Proof.
  split; [reflexivity|].
  destruct (wrap64_unsigned u Hu) as [Hrange Hback].
  pose proof (decode_integer IFACE_SERVICE RISCV_get_service fuel
                (wrap64s u) [] out Hrange eq_refl) as Hrun.
  cbn [text_of] in Hrun. rewrite Hback, app_nil_r in Hrun.
  unfold from_config. rewrite Hrun. mstep.
  unfold ret. do 2 f_equal.
  unfold uint64_range in Hu. apply andb_prop in Hu as [H1%Z.leb_le H2%Z.ltb_lt].
  unfold wrap64s. destruct (u <? 2 ^ 63) eqn:Hlow.
  - apply Z.ltb_lt in Hlow. rewrite Z.mod_small by lia. lia.
  - apply Z.ltb_ge in Hlow.
    rewrite <- (Z.mod_add (u + 2 ^ 63) (-1) (2 ^ 64)) by lia.
    rewrite Z.mod_small by lia. lia.
Qed.

(** ** Hexadecimal literals *)

Lemma hex_digit_facts k :
  0 <= k < 16 ->
  digit_value (hex_digit k) = Some k /\ is_hex_char (hex_digit k) = true.
Proof.
  intros Hk.
  assert (Hcases : k = 0 \/ k = 1 \/ k = 2 \/ k = 3 \/ k = 4 \/ k = 5
                   \/ k = 6 \/ k = 7 \/ k = 8 \/ k = 9 \/ k = 10 \/ k = 11
                   \/ k = 12 \/ k = 13 \/ k = 14 \/ k = 15) by lia.
  repeat (destruct Hcases as [->|Hcases]; [by vm_compute|]).
  subst k. by vm_compute.
Qed.

Lemma digits_prefix_hex hs :
  Forall (fun k => 0 <= k < 16) hs ->
  digits_prefix 16 (map hex_digit hs) = hs.
Proof.
  induction 1 as [|k hs Hk _ IH]; cbn [map digits_prefix]; [done|].
  rewrite (proj1 (hex_digit_facts k Hk)).
  rewrite (proj2 (Z.ltb_lt _ _)) by lia. by rewrite IH.
Qed.

Lemma accumulate_bound hs :
  Forall (fun k => 0 <= k < 16) hs ->
  forall a, 0 <= a ->
    0 <= fold_left (fun acc d => acc * 16 + d) hs a
    < (a + 1) * 16 ^ Z.of_nat (length hs).
Proof.
  induction 1 as [|k hs Hk _ IH]; intros a Ha; cbn [fold_left length].
  - change (16 ^ Z.of_nat 0) with 1. lia.
  - specialize (IH (a * 16 + k) ltac:(lia)).
    rewrite Nat2Z.inj_succ, Z.pow_succ_r by lia.
    assert (0 < 16 ^ Z.of_nat (length hs)) by (apply Z.pow_pos_nonneg; lia).
    nia.
Qed.

(** X27. The characters [0x] followed by up to sixteen hexadecimal digits
    decode to the signed integer with the 64 bits of the number the
    digits write in base 16. *)
Theorem hexadecimal_literal_decodes (hs : list Z) (rest : text)
    (out : AttributeType) (fuel : nat)
    (Hne : hs <> [])
    (Hdigits : Forall (fun k => 0 <= k < 16) hs)
    (Hlen : (length hs <= 16)%nat)
    (Hrest : delimited rest = true) :
  s2a (S fuel) (Ptr ("0" :: "x" :: map hex_digit hs ++ rest)) out
  = Ok (Ptr rest, Attr_Integer (wrap64s (accumulate 16 hs))) [].
Proof.
  rewrite string_to_attribute_S.
  cbn [skip_special_symbols skip_special].
  change (is_special "0") with false. cbv iota. mstep. cbn [peek]. mstep.
  code_cases. cbn [orb].
  cbn [skip_special_symbols skip_special].
  change (is_special "0") with false. cbv iota. mstep.
  cbn [literal_at txt list_ascii_of_string peek]. mstep. code_cases.
  mstep. mstep. code_cases. mstep. mstep. code_cases. mstep.
  unfold integer_literal. cbn [peek]. mstep.
  rewrite decide_True by done. cbn [next peek]. mstep. mstep.
  change (bool_decide ("x"%char = "x"%char)) with true. cbv iota.
  cbn [advance next].
  rewrite scan_digits_app; [|clear -Hdigits|done].
  2:{ apply Forall_forall. intros c (k & -> & Hk)%list_elem_of_fmap.
      rewrite Forall_forall in Hdigits.
      by apply hex_digit_facts, Hdigits. }
  cbn [app length]. rewrite length_map.
  rewrite decide_True by lia. mstep.
  unfold make_int64. do 4 f_equal.
  destruct hs as [|h hs']; [done|]. cbn [map].
  pose proof (Forall_inv Hdigits) as Hh. cbn beta in Hh.
  destruct (hex_digit_facts h Hh) as [Hv _].
  unfold strtoull.
  change (bool_decide ("0"%char = "0"%char)) with true.
  change (bool_decide ("x"%char = "x"%char)) with true.
  cbv iota. cbn [orb andb]. rewrite Hv. cbn [default].
  rewrite (bool_decide_eq_true_2 (is_Some (Some h))) by done.
  rewrite (bool_decide_eq_true_2 (h < 16)) by lia. cbn [andb].
  change (hex_digit h :: map hex_digit hs') with (map hex_digit (h :: hs')).
  rewrite digits_prefix_hex by done.
  pose proof (accumulate_bound (h :: hs') Hdigits 0 ltac:(lia)) as Hb.
  fold (accumulate 16 (h :: hs')) in Hb.
  assert (16 ^ Z.of_nat (length (h :: hs')) <= 16 ^ 16)
    by (apply Z.pow_le_mono_r; lia).
  change (16 ^ 16) with (2 ^ 64) in *.
  rewrite Z.min_l by (unfold ULLONG_MAX; lia). reflexivity.
Qed.

End DecoderEdges.

(** ** The decoder on concrete texts *)

Lemma leading_blanks_are_skipped_witness :
  from_config sample_IFACE_SERVICE sample_get_service 16
    (txt "  [1, true]") default_attribute
  = Ok (Attr_List [Attr_Integer 1; Attr_Boolean true]) [].
Proof.
  unfold from_config.
  change (txt "  [1, true]") with (txt "  " ++ txt "[1, true]").
  rewrite (leading_blanks_are_skipped sample_IFACE_SERVICE
             sample_get_service (txt "  ") (txt "[1, true]")
             default_attribute 16);
    [reflexivity | reflexivity | by vm_compute | by vm_compute].
Defined.



Lemma blank_text_decodes_to_zero_witness :
  from_config sample_IFACE_SERVICE sample_get_service 1 (txt "  ")
    (Attr_Boolean true)
  = Ok (Attr_Integer 0) [].
Proof.
  apply (blank_text_decodes_to_zero sample_IFACE_SERVICE sample_get_service
           (txt "  ") (Attr_Boolean true) 0).
  reflexivity.
Defined.

Lemma stray_character_stalls_list_witness :
  string_to_attribute sample_IFACE_SERVICE sample_get_service 1000
    (Ptr (txt "[-5]")) default_attribute
  = OutOfFuel.
Proof.
  apply (stray_character_stalls_list sample_IFACE_SERVICE sample_get_service
           "-" (txt "5]")).
  reflexivity.
Defined.


Lemma decoded_kind_follows_first_character_witness :
  token_shape "[" default_attribute (Attr_List [Attr_Integer 1]).
Proof.
  apply (decoded_kind_follows_first_character sample_IFACE_SERVICE
           sample_get_service 8 (txt " [1]") default_attribute
           (Attr_List [Attr_Integer 1]) (Ptr []) []).
  reflexivity.
Defined.

Lemma decoded_dictionary_has_distinct_keys_witness :
  from_config sample_IFACE_SERVICE sample_get_service 16
    (txt "{'a':1,'b':2,'a':3}") default_attribute
  = Ok (Attr_Dict [(Attr_String (txt "a"), Attr_Integer 3);
                   (Attr_String (txt "b"), Attr_Integer 2)]) []
  /\ distinct_keys [(Attr_String (txt "a"), Attr_Integer 3);
                    (Attr_String (txt "b"), Attr_Integer 2)] = true.
Proof.
  split; [reflexivity|].
  apply (decoded_dictionary_has_distinct_keys sample_IFACE_SERVICE
           sample_get_service 16 (txt "{'a':1,'b':2,'a':3}")
           default_attribute
           [(Attr_String (txt "a"), Attr_Integer 3);
            (Attr_String (txt "b"), Attr_Integer 2)] (Ptr []) []);
    reflexivity.
Defined.

Lemma unsigned_integer_decodes_signed_witness :
  from_config sample_IFACE_SERVICE sample_get_service 1
    (txt "18446744073709551615") default_attribute
  = Ok (Attr_Integer (-1)) [].
Proof.
  apply (unsigned_integer_decodes_signed sample_IFACE_SERVICE
           sample_get_service sample_sprintf_4f 18446744073709551615
           default_attribute 0).
  reflexivity.
Defined.

Lemma hexadecimal_literal_decodes_witness :
  from_config sample_IFACE_SERVICE sample_get_service 1 (txt "0x80000000")
    default_attribute
  = Ok (Attr_Integer 2147483648) [].
Proof.
  unfold from_config.
  change (txt "0x80000000")
    with ("0" :: "x" :: map hex_digit [8; 0; 0; 0; 0; 0; 0; 0] ++ []).
  rewrite (hexadecimal_literal_decodes sample_IFACE_SERVICE
             sample_get_service [8; 0; 0; 0; 0; 0; 0; 0] [] default_attribute
             0);
    [reflexivity | done | by repeat constructor | simpl; lia | reflexivity].
Defined.

(** ** The encoder on every constructible value *)

Lemma bind_Ok {A B} (m : result A) (f : A -> result B) a b l1 l2 :
  m = Ok a l1 -> f a = Ok b l2 -> bind m f = Ok b (l1 ++ l2).
Proof. intros -> Hf. unfold bind. by rewrite Hf. Qed.

(** X28. [to_config] returns a text for every constructible value that
    holds no null interface pointer, of any kind and nesting: no
    accessor reads a member of another kind and no byte is read outside
    the data. *)
Theorem to_config_is_defined (IFACE_SERVICE : text) (sprintf_4f : Z -> text)
    (v : AttributeType)
    (Hv : constructible v = true)
    (Hiface : no_null_iface v = true) :
  exists t log, to_config IFACE_SERVICE sprintf_4f v = Ok t log.
Proof.
  unfold to_config. revert Hv Hiface.
  induction v as [| |b|z|z| |s|d|l IH|d IH|[i|]]
    using AttributeType_nested_ind;
    intros Hv Hiface; try done;
    try (cbn [attribute_to_string to_uint64 to_string to_bool];
         repeat mstep; by eexists _, _).
  - cbn [attribute_to_string size].
    destruct d as [|b0 d0] eqn:Hd;
      [rewrite decide_False by (simpl; lia); mstep; by eexists _, _|].
    rewrite <- Hd. rewrite decide_True by (subst d; simpl; lia).
    destruct (exists_last (l := d)) as (d2 & last & ->); [by subst d|].
    clear Hd. rewrite length_app, Nat.add_sub. simpl length.
    pose proof (data_items_commas [] d2 [last]) as Hitems.
    cbn [app length] in Hitems. rewrite Hitems. mstep.
    rewrite (write_byte_at_lookup _ _ last)
      by (by apply list_lookup_middle).
    do 2 mstep. by eexists _, _.
  - cbn [attribute_to_string].
    match goal with
    | |- exists t log, bind ?m _ = _ =>
        assert (Hm : exists body log, m = Ok body log)
    end.
    { cbn [constructible no_null_iface] in Hv, Hiface.
      induction l as [|x l IHl]; [by eexists _, _|].
      apply Forall_cons in IH as [IHx IH].
      cbn [forallb] in Hv, Hiface.
      apply andb_prop in Hv as [Hx Hl].
      apply andb_prop in Hiface as [Hix Hil].
      rewrite clone_Ok by done. mstep.
      destruct (IHx Hx Hix) as (t & log1 & Ht).
      destruct (IHl IH Hl Hil) as (r & log2 & Hr).
      eexists _, _. eapply bind_Ok; [exact Ht|].
      eapply bind_Ok; [exact Hr|]. reflexivity. }
    destruct Hm as (body & log & Hm). eexists _, _.
    eapply bind_Ok; [exact Hm|]. reflexivity.
  - cbn [attribute_to_string].
    match goal with
    | |- exists t log, bind ?m _ = _ =>
        assert (Hm : exists body log, m = Ok body log)
    end.
    { cbn [constructible no_null_iface] in Hv, Hiface.
      induction d as [|[k x] d IHd]; [by eexists _, _|].
      apply Forall_cons in IH as [[_ IHx] IH].
      cbn [forallb fst snd] in Hv, Hiface, IHx.
      apply andb_prop in Hv as [Hkx Hd].
      apply andb_prop in Hiface as [Hix Hid].
      destruct k as [| | | | | |s| | | |]; try done.
      apply andb_prop in Hkx as [Hk Hx].
      change (key_ (Attr_String s, x)) with (Attr_String s).
      change (value_ (Attr_String s, x)) with x.
      cbn [to_string]. mstep.
      destruct (IHx Hx Hix) as (t & log1 & Ht).
      destruct (IHd IH Hd Hid) as (r & log2 & Hr).
      eexists _, _. eapply bind_Ok; [exact Ht|].
      eapply bind_Ok; [exact Hr|]. reflexivity. }
    destruct Hm as (body & log & Hm). eexists _, _.
    eapply bind_Ok; [exact Hm|]. reflexivity.
  - cbn [attribute_to_string].
    destruct (decide (strcmp (getFaceName i) IFACE_SERVICE = 0));
      by eexists _, _.
Qed.

Lemma to_config_is_defined_witness :
  exists t log,
    to_config sample_IFACE_SERVICE sample_sprintf_4f
      (Attr_List [Attr_Nil; Attr_Floating 0; Attr_UInteger 7;
                  Attr_Interface (Some {| getFaceName := txt "IOther";
                                          getObjName := txt "x" |});
                  Attr_Dict [(Attr_String (txt "k"), Attr_Data [])]])
    = Ok t log.
Proof.
  apply (to_config_is_defined sample_IFACE_SERVICE sample_sprintf_4f
           (Attr_List [Attr_Nil; Attr_Floating 0; Attr_UInteger 7;
                       Attr_Interface (Some {| getFaceName := txt "IOther";
                                               getObjName := txt "x" |});
                       Attr_Dict [(Attr_String (txt "k"), Attr_Data [])]]));
    reflexivity.
Defined.
